(** * Character routing for a two-voice pipeline

    A shallow embedding of [character_processor.py]: the [CharacterTagger],
    the [CharacterGate] and the [TTSSegmentSequencer], with the properties of
    the segment queue, of the gate filter and of the release protocol.

    Python strings are modelled as [string] (a sequence of 8-bit characters);
    an [async] method that mutates [self] and calls [push_frame] becomes a
    computation in a small state-and-output monad: it reads and writes the
    processor's fields and appends to the list of frames pushed so far. *)

From Stdlib Require Import String Ascii List Bool Arith Lia.
Import ListNotations.
Open Scope string_scope.
Open Scope list_scope.

(** ** Frames *)

Inductive FrameDirection : Type :=
| DOWNSTREAM
| UPSTREAM.

(** The frame classes that the processors tell apart.  Those imported from
    [pipecat.frames.frames] keep their names; in that library
    [LLMFullResponseStartFrame], [LLMFullResponseEndFrame] and [EndFrame]
    derive from [ControlFrame], [LLMTextFrame] from [TextFrame], and
    [SystemFrame] directly from [Frame].  [CharacterTagFrame] and
    [NextCharacterSequenceFrame] are declared in [character_processor.py] as
    direct subclasses of [Frame].  [SystemFrame n] stands for an instance of
    any subclass of [SystemFrame], [OtherFrame n] for an instance of any class
    that none of the [isinstance] tests of the file recognises. *)
Inductive Frame : Type :=
| LLMFullResponseStartFrame
| LLMFullResponseEndFrame
| LLMTextFrame (text : string)
| EndFrame
| SystemFrame (kind : nat)
| CharacterTagFrame (character : string)
| NextCharacterSequenceFrame
| OtherFrame (kind : nat).

Inductive FrameClass : Type :=
| cls_LLMFullResponseStartFrame
| cls_LLMFullResponseEndFrame
| cls_LLMTextFrame
| cls_EndFrame
| cls_SystemFrame
| cls_CharacterTagFrame
| cls_NextCharacterSequenceFrame.

Definition isinstance (frame : Frame) (cls : FrameClass) : bool :=
  match frame, cls with
  | LLMFullResponseStartFrame, cls_LLMFullResponseStartFrame => true
  | LLMFullResponseEndFrame, cls_LLMFullResponseEndFrame => true
  | LLMTextFrame _, cls_LLMTextFrame => true
  | EndFrame, cls_EndFrame => true
  | SystemFrame _, cls_SystemFrame => true
  | CharacterTagFrame _, cls_CharacterTagFrame => true
  | NextCharacterSequenceFrame, cls_NextCharacterSequenceFrame => true
  | _, _ => false
  end.

(** A call [push_frame(frame, direction)]; the direction defaults to
    [DOWNSTREAM]. *)
Definition Push : Type := (Frame * FrameDirection)%type.

(** ** The processor monad: the fields of [self] and the frames pushed

    Each [process_frame] first calls the method of the base class
    [FrameProcessor], which keeps the framework's own books and pushes
    nothing; it has no part in the model. *)

Definition Proc (S A : Type) : Type := S -> A * S * list Push.

Definition ret {S A : Type} (a : A) : Proc S A :=
  fun self => (a, self, []).

Definition bind {S A B : Type} (m : Proc S A) (k : A -> Proc S B) : Proc S B :=
  fun self =>
    let '(a, self1, out1) := m self in
    let '(b, self2, out2) := k a self1 in
    (b, self2, out1 ++ out2).

Definition get {S : Type} : Proc S S :=
  fun self => (self, self, []).

Definition put {S : Type} (self' : S) : Proc S unit :=
  fun _ => (tt, self', []).

Definition push_frame {S : Type} (frame : Frame) (direction : FrameDirection)
  : Proc S unit :=
  fun self => (tt, self, [(frame, direction)]).

Definition pass {S : Type} : Proc S unit := ret tt.

Declare Scope proc_scope.
Delimit Scope proc_scope with proc.
Notation "x <- m ;; k" := (bind m (fun x => k))
  (at level 61, m at next level, right associativity) : proc_scope.
Notation "m ;; k" := (bind m (fun _ => k))
  (at level 61, right associativity) : proc_scope.
Open Scope proc_scope.

(** The state and the output of a computation. *)
Definition exec_state {S A : Type} (m : Proc S A) (self : S) : S :=
  snd (fst (m self)).

Definition exec_out {S A : Type} (m : Proc S A) (self : S) : list Push :=
  snd (m self).

(** ** The regular expression of the tagger

    [re.match] is called with a pattern of three groups: any run of
    characters, then one of the tags AA and BB, then any run of characters.
    The match is anchored at the start of [text], and the dot matches every
    character but the line feed, so the three groups lie in the first line of
    [text].  The first group is greedy: the matcher tries
    the longest prefix first and backs off, so the tag it finds is the
    rightmost one of that line; the third group then runs to the end of the
    line.  The result is the three groups, or [None] when the line holds no
    tag. *)

Definition line_feed : ascii := "010"%char.

Fixpoint first_line (s : string) : string :=
  match s with
  | EmptyString => EmptyString
  | String c rest =>
      if Ascii.eqb c line_feed then EmptyString else String c (first_line rest)
  end.

(** The alternation [(AA|BB)] tried at the start of [s]: the tag and what
    follows it. *)
Definition tag_at (s : string) : option (string * string) :=
  match s with
  | String c1 (String c2 rest) =>
      if Ascii.eqb c1 "A" && Ascii.eqb c2 "A" then Some ("AA", rest)
      else if Ascii.eqb c1 "B" && Ascii.eqb c2 "B" then Some ("BB", rest)
      else None
  | _ => None
  end.

Fixpoint greedy_groups (s : string) : option (string * string * string) :=
  match s with
  | EmptyString => None
  | String c rest =>
      match greedy_groups rest with
      | Some (pre, tag, post) => Some (String c pre, tag, post)
      | None =>
          match tag_at s with
          | Some (tag, post) => Some (EmptyString, tag, post)
          | None => None
          end
      end
  end.

Definition re_match (text : string) : option (string * string * string) :=
  greedy_groups (first_line text).

(** Truth value of a Python string: non-empty. *)
Definition truthy (s : string) : bool :=
  match s with
  | EmptyString => false
  | String _ _ => true
  end.

(** ** CharacterTagger *)

Module Tagger.

Record Segment : Type := mkSegment {
  character : string;
  text : string;
  buffered : bool
}.

Record CharacterTagger : Type := mkTagger {
  current_character : string;
  segments : list Segment
}.

(** [__init__] *)
Definition init : CharacterTagger :=
  {| current_character := "AA"; segments := [] |}.

Definition set_segments (l : list Segment) : Proc CharacterTagger unit :=
  self <- get ;;
  put {| current_character := current_character self; segments := l |}.

Definition set_current_character (c : string) : Proc CharacterTagger unit :=
  self <- get ;;
  put {| current_character := c; segments := segments self |}.

(** [self.segments[-1].text += more]: the last segment, changed in place. *)
Fixpoint append_to_last (l : list Segment) (more : string) : list Segment :=
  match l with
  | [] => []
  | [s] => [{| character := character s; text := (text s ++ more)%string;
               buffered := buffered s |}]
  | s :: rest => s :: append_to_last rest more
  end.

Definition create_segment (character : string) : Proc CharacterTagger unit :=
  self <- get ;;
  let should_buffer := (0 <? length (segments self))%nat in
  set_segments (segments self ++ [mkSegment character "" should_buffer]) ;;
  if negb should_buffer then
    push_frame (CharacterTagFrame character) DOWNSTREAM ;;
    push_frame LLMFullResponseStartFrame DOWNSTREAM
  else pass.

(** [push_text] takes a string or an [LLMTextFrame]; either way it works with
    the frame's text, which is what the argument stands for here.  The list
    is not empty when its last element is read, since [create_segment] has
    appended to it; the [None] branch is never taken. *)
Definition push_text (text_or_frame : string) : Proc CharacterTagger unit :=
  self <- get ;;
  (match segments self with
   | [] => create_segment "AA"
   | _ :: _ => pass
   end) ;;
  self <- get ;;
  match last (map Some (segments self)) None with
  | Some s =>
      if negb (buffered s) then
        push_frame (LLMTextFrame text_or_frame) DOWNSTREAM
      else
        set_segments (append_to_last (segments self) text_or_frame)
  | None => pass
  end.

Definition flush_character_segment : Proc CharacterTagger unit :=
  self <- get ;;
  match segments self with
  | [] => pass
  | segment :: rest =>
      set_segments rest ;;
      if negb (buffered segment) then
        push_frame LLMFullResponseEndFrame DOWNSTREAM
      else
        push_frame (CharacterTagFrame (character segment)) DOWNSTREAM ;;
        push_frame LLMFullResponseStartFrame DOWNSTREAM ;;
        push_frame (LLMTextFrame (text segment)) DOWNSTREAM ;;
        push_frame LLMFullResponseEndFrame DOWNSTREAM
  end.

(** The statement of [process_frame] on the second group of a match: a tag
    other than the current character becomes the current character and
    starts a segment. *)
Definition on_character (character : string) : Proc CharacterTagger unit :=
  self <- get ;;
  if truthy character
     && negb (String.eqb character (current_character self))
  then set_current_character character ;; create_segment character
  else pass.

(** The branch of [process_frame] for an [LLMTextFrame]. *)
Definition process_text (frame_text : string) : Proc CharacterTagger unit :=
  match re_match frame_text with
  | Some (pre_text, character, post_text) =>
      (if truthy pre_text then push_text pre_text else pass) ;;
      on_character character ;;
      if truthy post_text then push_text post_text else pass
  | None => push_text frame_text
  end.

Definition process_frame (frame : Frame) (direction : FrameDirection)
  : Proc CharacterTagger unit :=
  if isinstance frame cls_LLMFullResponseStartFrame then
    set_segments []
  else if isinstance frame cls_LLMFullResponseEndFrame then
    flush_character_segment
  else
    (if isinstance frame cls_NextCharacterSequenceFrame then
       flush_character_segment
     else pass) ;;
    match frame with
    | LLMTextFrame frame_text => process_text frame_text
    | _ => push_frame frame direction
    end.

(** The tagger fed a list of frames, one [process_frame] call each. *)
Fixpoint process_frames (frames : list Push) : Proc CharacterTagger unit :=
  match frames with
  | [] => pass
  | (frame, direction) :: rest =>
      process_frame frame direction ;; process_frames rest
  end.

End Tagger.

(** ** CharacterGate *)

Module Gate.

Record CharacterGate : Type := mkGate {
  character : string;
  open : bool
}.

(** [__init__] *)
Definition init (character : string) : CharacterGate :=
  {| character := character; open := false |}.

Definition set_open (b : bool) : Proc CharacterGate unit :=
  self <- get ;;
  put {| character := character self; open := b |}.

Definition _should_passthrough_frame (self : CharacterGate) (frame : Frame)
  : bool :=
  if open self then true
  else isinstance frame cls_EndFrame || isinstance frame cls_SystemFrame.

Definition process_frame (frame : Frame) (direction : FrameDirection)
  : Proc CharacterGate unit :=
  (match frame with
   | CharacterTagFrame frame_character =>
       self <- get ;;
       if String.eqb frame_character (character self) then set_open true
       else set_open false
   | _ => pass
   end) ;;
  self <- get ;;
  if _should_passthrough_frame self frame then push_frame frame direction
  else pass.

(** The gate fed a list of frames, one [process_frame] call each. *)
Fixpoint process_frames (frames : list Push) : Proc CharacterGate unit :=
  match frames with
  | [] => pass
  | (frame, direction) :: rest =>
      process_frame frame direction ;; process_frames rest
  end.

End Gate.

(** ** CharacterRetagger *)

Module Retagger.

Record CharacterRetagger : Type := mkRetagger {
  character : string
}.

(** The response start is pushed without a direction, so downstream; the
    label is the character followed by a line feed. *)
Definition process_frame (frame : Frame) (direction : FrameDirection)
  : Proc CharacterRetagger unit :=
  if isinstance frame cls_LLMFullResponseStartFrame then
    push_frame frame DOWNSTREAM ;;
    self <- get ;;
    push_frame
      (LLMTextFrame (character self ++ String line_feed EmptyString)%string)
      DOWNSTREAM
  else push_frame frame direction.

Fixpoint process_frames (frames : list Push) : Proc CharacterRetagger unit :=
  match frames with
  | [] => pass
  | (frame, direction) :: rest =>
      process_frame frame direction ;; process_frames rest
  end.

End Retagger.

(** ** TTSSegmentSequencer: it has no fields *)

Module Sequencer.

Definition process_frame (frame : Frame) (direction : FrameDirection)
  : Proc unit unit :=
  (if isinstance frame cls_LLMFullResponseEndFrame then
     push_frame NextCharacterSequenceFrame UPSTREAM
   else pass) ;;
  push_frame frame direction.

Fixpoint process_frames (frames : list Push) : Proc unit unit :=
  match frames with
  | [] => pass
  | (frame, direction) :: rest =>
      process_frame frame direction ;; process_frames rest
  end.

End Sequencer.

(** ** Observing the frames pushed *)

Definition downstream (frame : Frame) : Push := (frame, DOWNSTREAM).
Definition upstream (frame : Frame) : Push := (frame, UPSTREAM).

(** The text of the [LLMTextFrame]s of an output, in the order pushed. *)
Fixpoint emitted_text (out : list Push) : string :=
  match out with
  | [] => EmptyString
  | (LLMTextFrame t, _) :: rest => (t ++ emitted_text rest)%string
  | _ :: rest => emitted_text rest
  end.

(** The segments an output holds, as a downstream reader sees them: a
    [CharacterTagFrame] opens the segment of its character, and each
    [LLMTextFrame] after it adds to that segment's text. *)
Fixpoint add_text (segs : list (string * string)) (t : string)
  : list (string * string) :=
  match segs with
  | [] => []
  | [(c, s)] => [(c, (s ++ t)%string)]
  | seg :: rest => seg :: add_text rest t
  end.

Fixpoint collect_segments_from (acc : list (string * string))
  (out : list Push) : list (string * string) :=
  match out with
  | [] => acc
  | (CharacterTagFrame c, _) :: rest =>
      collect_segments_from (acc ++ [(c, EmptyString)]) rest
  | (LLMTextFrame t, _) :: rest =>
      collect_segments_from (add_text acc t) rest
  | _ :: rest => collect_segments_from acc rest
  end.

Definition collect_segments (out : list Push) : list (string * string) :=
  collect_segments_from [] out.

(** The frames of one response as the tagger receives them: the response
    start, the tokens, the response end, then [releases] release signals
    coming back from the sequencer. *)
Definition token_frames (tokens : list string) : list Push :=
  map (fun t => downstream (LLMTextFrame t)) tokens.

Definition response (tokens : list string) (releases : nat) : list Push :=
  downstream LLMFullResponseStartFrame :: token_frames tokens
    ++ downstream LLMFullResponseEndFrame
    :: repeat (upstream NextCharacterSequenceFrame) releases.


(** ** Tag markers in a text, in the words of the specification *)

Definition is_tag_pair (c1 c2 : ascii) : bool :=
  (Ascii.eqb c1 "A" && Ascii.eqb c2 "A")
  || (Ascii.eqb c1 "B" && Ascii.eqb c2 "B").

(** The text with every occurrence of a tag symbol removed, scanning from
    the left. *)
Fixpoint strip_tags (s : string) : string :=
  match s with
  | EmptyString => EmptyString
  | String c1 rest =>
      match rest with
      | String c2 rest' =>
          if is_tag_pair c1 c2 then strip_tags rest'
          else String c1 (strip_tags rest)
      | EmptyString => String c1 EmptyString
      end
  end.

(** The number of positions of [s] at which a tag symbol starts. *)
Fixpoint count_tags (s : string) : nat :=
  match s with
  | EmptyString => 0
  | String c1 rest =>
      (match rest with
       | String c2 _ => if is_tag_pair c1 c2 then 1 else 0
       | EmptyString => 0
       end) + count_tags rest
  end.

Fixpoint has_line_feed (s : string) : bool :=
  match s with
  | EmptyString => false
  | String c rest => Ascii.eqb c line_feed || has_line_feed rest
  end.

(** The texts of a list, one after the other. *)
Fixpoint join (texts : list string) : string :=
  match texts with
  | [] => EmptyString
  | t :: rest => (t ++ join rest)%string
  end.

(** A token the tagger is made for: free of tags, or one line with one
    tag. *)
Definition well_tagged (token : string) : bool :=
  (count_tags token =? 0)%nat
  || ((count_tags token =? 1)%nat && negb (has_line_feed token)).

(** A tag symbol formed across the boundary of two texts: the last character
    of the first with the first character of the second. *)
Fixpoint last_char (s : string) : option ascii :=
  match s with
  | EmptyString => None
  | String c rest =>
      match last_char rest with
      | Some c' => Some c'
      | None => Some c
      end
  end.

Definition straddles (s1 s2 : string) : bool :=
  match last_char s1, s2 with
  | Some c1, String c2 _ => is_tag_pair c1 c2
  | _, _ => false
  end.

(** No tag symbol of the input is split over tokens: no token ends in a
    character that forms a tag symbol with the text that follows it. *)
Fixpoint tags_within_tokens (tokens : list string) : bool :=
  match tokens with
  | [] => true
  | t :: rest => negb (straddles t (join rest)) && tags_within_tokens rest
  end.

(** The text of the text frames of a stream with the tag symbols removed,
    in the order of the frames. *)
Fixpoint text_without_tags (frames : list Push) : string :=
  match frames with
  | [] => EmptyString
  | (LLMTextFrame t, _) :: rest =>
      (strip_tags t ++ text_without_tags rest)%string
  | _ :: rest => text_without_tags rest
  end.

(** Every text frame of the stream holds a well-tagged token. *)
Definition well_tagged_frames (frames : list Push) : bool :=
  forallb
    (fun p =>
       match fst p with
       | LLMTextFrame t => well_tagged t
       | _ => true
       end) frames.

(** What a token adds to the text of the segments: its first and third
    groups when the pattern matches, the whole token otherwise. *)
Definition contribution (token : string) : string :=
  match re_match token with
  | Some (pre_text, _, post_text) => (pre_text ++ post_text)%string
  | None => token
  end.

(** ** Invariants of the segment queue *)

(** Only the head of the queue can be unbuffered. *)
Definition only_head_live (l : list Tagger.Segment) : Prop :=
  Forall (fun s => Tagger.buffered s = true) (tl l).

(** The segments of the queue that are live: released and not yet closed. *)
Definition live_segments (l : list Tagger.Segment) : list Tagger.Segment :=
  filter (fun s => negb (Tagger.buffered s)) l.

(** The text held in the queue, oldest segment first. *)
Fixpoint pending (l : list Tagger.Segment) : string :=
  match l with
  | [] => EmptyString
  | s :: rest => (Tagger.text s ++ pending rest)%string
  end.

(** A live head holds no text (its text went out as it came), and all later
    segments are held. *)
Definition queue_ok (l : list Tagger.Segment) : Prop :=
  match l with
  | [] => True
  | s :: rest =>
      (Tagger.buffered s = false -> Tagger.text s = EmptyString)
      /\ Forall (fun s' => Tagger.buffered s' = true) rest
  end.

(** A computation that moves text [t] from the input to the output or to the
    queue, losing none and keeping the order. *)
Definition conserves (t : string) (m : Proc Tagger.CharacterTagger unit)
  : Prop :=
  forall self,
    queue_ok (Tagger.segments self) ->
    queue_ok (Tagger.segments (exec_state m self))
    /\ (emitted_text (exec_out m self)
        ++ pending (Tagger.segments (exec_state m self)))%string
       = (pending (Tagger.segments self) ++ t)%string.

(** ** The gate's filter in the words of the specification *)

(** The frames the specification calls structural: response start, response
    end, and the system and termination frames. *)
Definition structural (frame : Frame) : bool :=
  match frame with
  | LLMFullResponseStartFrame | LLMFullResponseEndFrame
  | EndFrame | SystemFrame _ => true
  | _ => false
  end.

(** The frames the gate's own test lets through when it is closed. *)
Definition end_or_system (frame : Frame) : bool :=
  isinstance frame cls_EndFrame || isinstance frame cls_SystemFrame.

(** ** Streams of frames between the processors *)

Definition is_downstream (p : Push) : bool :=
  match snd p with
  | DOWNSTREAM => true
  | UPSTREAM => false
  end.

(** The frames of an output that travel on to the next processor. *)
Definition downstream_part (out : list Push) : list Push :=
  filter is_downstream out.

(** The termination and system frames of a stream: those a closed gate lets
    through. *)
Definition lifecycle (p : Push) : bool := end_or_system (fst p).

Definition is_response_start (p : Push) : bool :=
  isinstance (fst p) cls_LLMFullResponseStartFrame.

Definition is_response_end (p : Push) : bool :=
  isinstance (fst p) cls_LLMFullResponseEndFrame.

Definition is_tag_frame (p : Push) : bool :=
  isinstance (fst p) cls_CharacterTagFrame.

Definition is_release (p : Push) : bool :=
  isinstance (fst p) cls_NextCharacterSequenceFrame.

Definition is_text (p : Push) : bool :=
  isinstance (fst p) cls_LLMTextFrame.

(** The number of response ends, and of release signals, in a stream. *)
Definition response_ends (out : list Push) : nat :=
  length (filter is_response_end out).

Definition releases_sent (out : list Push) : nat :=
  length (filter is_release out).

(** A token in which the pattern finds no tag. *)
Definition untagged (token : string) : bool :=
  match re_match token with
  | Some _ => false
  | None => true
  end.

(** What the text frames of a stream add to the text of the segments. *)
Fixpoint text_contributions (frames : list Push) : string :=
  match frames with
  | [] => EmptyString
  | (LLMTextFrame t, _) :: rest =>
      (contribution t ++ text_contributions rest)%string
  | _ :: rest => text_contributions rest
  end.

(** The two characters of the pipeline. *)
Definition is_speaker (c : string) : bool :=
  String.eqb c "AA" || String.eqb c "BB".

(** The shape of a stream of segments: a tag frame, a response start, text
    frames, a response end, and so on.  Frames of other kinds are not part of
    a segment and do not count. *)
Inductive Bracket : Type :=
| Outside
| AfterTag
| Inside
| Broken.

Definition bracket_step (b : Bracket) (p : Push) : Bracket :=
  match fst p with
  | CharacterTagFrame _ =>
      match b with Outside => AfterTag | _ => Broken end
  | LLMFullResponseStartFrame =>
      match b with AfterTag => Inside | _ => Broken end
  | LLMTextFrame _ =>
      match b with Inside => Inside | _ => Broken end
  | LLMFullResponseEndFrame =>
      match b with Inside => Outside | _ => Broken end
  | _ => b
  end.

Definition brackets (b : Bracket) (out : list Push) : Bracket :=
  fold_left bracket_step out b.

(** Where the output stands for a queue: inside a segment when the head is
    live, outside otherwise. *)
Definition expected_bracket (l : list Tagger.Segment) : Bracket :=
  match l with
  | s :: _ => if Tagger.buffered s then Outside else Inside
  | [] => Outside
  end.

(** The character of the last segment collected, if any. *)
Fixpoint last_character (segs : list (string * string)) : option string :=
  match segs with
  | [] => None
  | [(c, _)] => Some c
  | _ :: rest => last_character rest
  end.

(** The character of the last tag frame of a stream, if any. *)
Fixpoint last_tag (frames : list Push) : option string :=
  match frames with
  | [] => None
  | (frame, _) :: rest =>
      match last_tag rest with
      | Some c => Some c
      | None =>
          match frame with
          | CharacterTagFrame c => Some c
          | _ => None
          end
      end
  end.

(** The segments of a character among those collected. *)
Definition segment_of (c : string) (seg : string * string) : bool :=
  String.eqb (fst seg) c.

(** The last segment of the queue exists and is held. *)
Definition last_is_held (l : list Tagger.Segment) : bool :=
  last (map Tagger.buffered l) false.

(** A computation that, behind a held segment, pushes nothing and adds text
    [t] to the end of the queue. *)
Definition buffers (t : string) (m : Proc Tagger.CharacterTagger unit)
  : Prop :=
  forall self,
    last_is_held (Tagger.segments self) = true ->
    exec_out m self = []
    /\ last_is_held (Tagger.segments (exec_state m self)) = true
    /\ pending (Tagger.segments (exec_state m self))
       = (pending (Tagger.segments self) ++ t)%string
    /\ (length (Tagger.segments self)
        <= length (Tagger.segments (exec_state m self)))%nat.

(** A computation of the tagger whose output carries on the shape of the
    stream of segments from where the queue says it stands. *)
Definition keeps_brackets (m : Proc Tagger.CharacterTagger unit) : Prop :=
  forall self,
    only_head_live (Tagger.segments self) ->
    only_head_live (Tagger.segments (exec_state m self))
    /\ brackets (expected_bracket (Tagger.segments self)) (exec_out m self)
       = expected_bracket (Tagger.segments (exec_state m self)).

(** Every tag frame of the output names one of the two characters. *)
Definition speaker_tags (out : list Push) : bool :=
  forallb
    (fun p =>
       match fst p with
       | CharacterTagFrame c => is_speaker c
       | _ => true
       end) out.

Definition speaker_queue (l : list Tagger.Segment) : bool :=
  forallb (fun s => is_speaker (Tagger.character s)) l.

(** A computation of the tagger that keeps the queue to segments of the
    two characters and pushes tag frames of the two characters only. *)
Definition keeps_speakers (m : Proc Tagger.CharacterTagger unit) : Prop :=
  forall self,
    speaker_queue (Tagger.segments self) = true ->
    speaker_queue (Tagger.segments (exec_state m self)) = true
    /\ speaker_tags (exec_out m self) = true.

(** * Properties *)

(** ** The monad *)

Lemma exec_out_bind {S A B : Type} (m : Proc S A) (k : A -> Proc S B) self :
  exec_out (bind m k) self
  = exec_out m self ++ exec_out (k (fst (fst (m self)))) (exec_state m self).
Proof.
  unfold exec_out, exec_state, bind.
  destruct (m self) as [[a self1] out1]; simpl.
  destruct (k a self1) as [[b self2] out2]; reflexivity.
Qed.

Lemma exec_state_bind {S A B : Type} (m : Proc S A) (k : A -> Proc S B) self :
  exec_state (bind m k) self
  = exec_state (k (fst (fst (m self)))) (exec_state m self).
Proof.
  unfold exec_state, bind.
  destruct (m self) as [[a self1] out1]; simpl.
  destruct (k a self1) as [[b self2] out2]; reflexivity.
Qed.

Lemma exec_out_seq {S : Type} (m k : Proc S unit) self :
  exec_out (m ;; k) self = exec_out m self ++ exec_out k (exec_state m self).
Proof. apply exec_out_bind. Qed.

Lemma exec_state_seq {S : Type} (m k : Proc S unit) self :
  exec_state (m ;; k) self = exec_state k (exec_state m self).
Proof. apply exec_state_bind. Qed.

Lemma proc_unit_eta {S : Type} (m : Proc S unit) self :
  m self = (tt, exec_state m self, exec_out m self).
Proof.
  unfold exec_state, exec_out.
  destruct (m self) as [[[] self1] out1]; reflexivity.
Qed.

Lemma exec_state_eq {S : Type} (m : Proc S unit) self self' out :
  m self = (tt, self', out) -> exec_state m self = self'.
Proof. unfold exec_state. intros ->. reflexivity. Qed.

Lemma exec_out_eq {S : Type} (m : Proc S unit) self self' out :
  m self = (tt, self', out) -> exec_out m self = out.
Proof. unfold exec_out. intros ->. reflexivity. Qed.

Ltac proc_unfold :=
  unfold exec_out, exec_state, bind, get, put, push_frame, pass, ret.

(** ** The release signal at the tagger *)

Import Tagger.

Lemma flush_empty_queue self :
  segments self = [] -> flush_character_segment self = (tt, self, []).
Proof.
  intros Hempty. unfold flush_character_segment. proc_unfold.
  rewrite Hempty. reflexivity.
Qed.

(** C7: a release signal that reaches the tagger while its queue is empty
    changes nothing in the tagger and makes it emit no segment frame: the
    flush does nothing, and the only frame pushed is the signal itself,
    forwarded in its direction of travel. *)
Theorem release_with_empty_queue_is_noop :
  forall self direction,
    segments self = [] ->
    flush_character_segment self = (tt, self, [])
    /\ Tagger.process_frame NextCharacterSequenceFrame direction self
       = (tt, self, [(NextCharacterSequenceFrame, direction)]).
Proof.
  intros self direction Hempty. split.
  - apply flush_empty_queue, Hempty.
  - unfold Tagger.process_frame; simpl. unfold bind at 1.
    rewrite (flush_empty_queue self Hempty). reflexivity.
Qed.

Lemma release_with_empty_queue_is_noop_witness :
  segments init = []
  /\ Tagger.process_frame NextCharacterSequenceFrame UPSTREAM init
     = (tt, init, [(NextCharacterSequenceFrame, UPSTREAM)]).
Proof.
  split.
  - reflexivity.
  - apply (release_with_empty_queue_is_noop init UPSTREAM). reflexivity.
Defined.

(** C10: the tagger does not consume the release signal: processing a
    [NextCharacterSequenceFrame] flushes the oldest segment and then pushes
    the signal itself in the direction it was travelling, after the frames of
    the flush. *)
Theorem release_signal_is_forwarded :
  forall self direction,
    exec_out (Tagger.process_frame NextCharacterSequenceFrame direction) self
    = exec_out flush_character_segment self
      ++ [(NextCharacterSequenceFrame, direction)]
    /\ exec_state (Tagger.process_frame NextCharacterSequenceFrame direction)
         self
       = exec_state flush_character_segment self.
Proof.
  intros self direction. unfold Tagger.process_frame; simpl. split.
  - rewrite exec_out_seq. reflexivity.
  - rewrite exec_state_seq. reflexivity.
Qed.

(** ** The gate *)

(** What a gate pushes for a frame: the frame itself in its direction, or
    nothing.  A tag frame first sets [open]; the test then reads the new
    value. *)
Lemma gate_process_frame_out self frame direction :
  exec_out (Gate.process_frame frame direction) self
  = if match frame with
       | CharacterTagFrame c => String.eqb c (Gate.character self)
       | _ => Gate.open self || end_or_system frame
       end
    then [(frame, direction)] else [].
Proof.
  unfold Gate.process_frame, Gate._should_passthrough_frame, Gate.set_open,
    end_or_system.
  destruct self as [gc go].
  destruct frame as [| | t | | k | c | | k]; proc_unfold; simpl;
    try (destruct go; reflexivity).
  destruct (String.eqb c gc); reflexivity.
Qed.

Lemma gate_process_frame_open self frame direction :
  Gate.open (exec_state (Gate.process_frame frame direction) self)
  = match frame with
    | CharacterTagFrame c => String.eqb c (Gate.character self)
    | _ => Gate.open self
    end.
Proof.
  unfold Gate.process_frame, Gate._should_passthrough_frame, Gate.set_open.
  destruct self as [gc go].
  destruct frame as [| | t | | k | c | | k]; proc_unfold; simpl;
    try (destruct go; reflexivity).
  destruct (String.eqb c gc); reflexivity.
Qed.

(** C9: a gate forwards a tag frame if and only if the frame names the gate's
    own character: the tag that opens the gate goes down its branch, the tag
    that closes it is dropped there; the gate is open afterwards exactly in
    the first case. *)
Theorem gate_forwards_own_tag_only :
  forall self c direction,
    let out :=
      exec_out (Gate.process_frame (CharacterTagFrame c) direction) self in
    let self' :=
      exec_state (Gate.process_frame (CharacterTagFrame c) direction) self in
    (out = [(CharacterTagFrame c, direction)] <-> c = Gate.character self)
    /\ (out = [] <-> c <> Gate.character self)
    /\ Gate.open self' = String.eqb c (Gate.character self).
Proof.
  intros self c direction out self'. subst out self'.
  rewrite gate_process_frame_out, gate_process_frame_open.
  destruct (String.eqb_spec c (Gate.character self)) as [Heq | Hneq].
  - repeat split; intros; try congruence; discriminate.
  - repeat split; intros; try congruence; discriminate.
Qed.

(** C2, as the claim reads, fails: a closed gate forwards neither the
    response start nor the response end, which the claim counts among the
    frames that always pass; and it does forward the tag frame of its own
    character, which is not a structural frame. *)
Lemma closed_gate_drops_response_markers :
  Gate.open (Gate.init "BB") = false
  /\ structural LLMFullResponseStartFrame = true
  /\ structural LLMFullResponseEndFrame = true
  /\ exec_out (Gate.process_frame LLMFullResponseStartFrame DOWNSTREAM)
       (Gate.init "BB") = []
  /\ exec_out (Gate.process_frame LLMFullResponseEndFrame DOWNSTREAM)
       (Gate.init "BB") = []
  /\ structural (CharacterTagFrame "BB") = false
  /\ exec_out (Gate.process_frame (CharacterTagFrame "BB") DOWNSTREAM)
       (Gate.init "BB") = [downstream (CharacterTagFrame "BB")].
Proof. repeat split. Qed.

(** C2, amended: a frame processed while the gate is closed is forwarded if
    and only if it is an [EndFrame] or a [SystemFrame], or it is the tag
    frame of the gate's own character (which opens the gate); every other
    frame is dropped and leaves the gate closed.  So a closed gate never
    forwards a text frame, and it drops the response start and the response
    end; an [EndFrame] or a [SystemFrame] is forwarded whatever the state of
    the gate. *)
Theorem closed_gate_forwards_end_and_system_only :
  forall self frame direction,
    Gate.open self = false ->
    let out := exec_out (Gate.process_frame frame direction) self in
    (out = [(frame, direction)]
     <-> end_or_system frame = true
         \/ frame = CharacterTagFrame (Gate.character self))
    /\ (out <> [(frame, direction)]
        -> out = []
           /\ Gate.open
                (exec_state (Gate.process_frame frame direction) self)
              = false)
    /\ (forall t, frame = LLMTextFrame t -> out = [])
    /\ (frame = LLMFullResponseStartFrame \/ frame = LLMFullResponseEndFrame
        -> out = [])
    /\ (forall other,
          end_or_system frame = true ->
          exec_out (Gate.process_frame frame direction) other
          = [(frame, direction)]).
Proof.
  intros self frame direction Hclosed out. subst out.
  rewrite gate_process_frame_out, gate_process_frame_open, Hclosed.
  repeat split.
  - destruct frame as [| | t | | k | c | | k]; simpl; intros H;
      try discriminate H; auto.
    destruct (String.eqb_spec c (Gate.character self));
      [subst; auto | discriminate H].
  - intros [H | H].
    + destruct frame; simpl in *; try discriminate H; reflexivity.
    + subst frame. rewrite String.eqb_refl. reflexivity.
  - destruct frame as [| | t | | k | c | | k]; simpl in *;
      try (destruct (end_or_system _); congruence);
      try congruence.
    destruct (String.eqb c (Gate.character self)); congruence.
  - destruct frame as [| | t | | k | c | | k]; simpl in *; try congruence.
    destruct (String.eqb c (Gate.character self)); congruence.
  - intros t ->. reflexivity.
  - intros [-> | ->]; reflexivity.
  - intros other H. rewrite gate_process_frame_out.
    destruct frame; simpl in *; try discriminate H;
      rewrite orb_true_r; reflexivity.
Qed.

Lemma closed_gate_forwards_end_and_system_only_witness :
  Gate.open (Gate.init "AA") = false
  /\ (exec_out (Gate.process_frame (SystemFrame 0) DOWNSTREAM)
        (Gate.init "AA") = [(SystemFrame 0, DOWNSTREAM)]
      <-> end_or_system (SystemFrame 0) = true
          \/ SystemFrame 0 = CharacterTagFrame "AA").
Proof.
  split.
  - reflexivity.
  - apply (closed_gate_forwards_end_and_system_only
             (Gate.init "AA") (SystemFrame 0) DOWNSTREAM).
    reflexivity.
Defined.

(** ** The tagger's methods as equations *)

Lemma last_map_Some {A : Type} (l : list A) (d : A) :
  l <> [] -> last (map Some l) None = Some (last l d).
Proof.
  induction l as [| a l IH]; intros Hne; [congruence |].
  destruct l as [| b l]; [reflexivity |].
  change (last (map Some (b :: l)) None = Some (last (b :: l) d)).
  apply IH. discriminate.
Qed.

Lemma create_segment_eq c self :
  create_segment c self
  = (tt,
     {| current_character := current_character self;
        segments := segments self
                    ++ [mkSegment c "" (0 <? length (segments self))%nat] |},
     if (0 <? length (segments self))%nat then []
     else [downstream (CharacterTagFrame c);
           downstream LLMFullResponseStartFrame]).
Proof.
  unfold create_segment, set_segments. proc_unfold.
  destruct (0 <? length (segments self))%nat; reflexivity.
Qed.

Lemma push_text_eq t self :
  push_text t self
  = match segments self with
    | [] =>
        (tt,
         {| current_character := current_character self;
            segments := [mkSegment "AA" "" false] |},
         [downstream (CharacterTagFrame "AA");
          downstream LLMFullResponseStartFrame;
          downstream (LLMTextFrame t)])
    | s :: rest =>
        if buffered (last (s :: rest) s) then
          (tt,
           {| current_character := current_character self;
              segments := append_to_last (s :: rest) t |},
           [])
        else (tt, self, [downstream (LLMTextFrame t)])
    end.
Proof.
  unfold push_text. unfold bind at 1. unfold get at 1.
  destruct (segments self) as [| s rest] eqn:Hsegs.
  - unfold bind at 1. rewrite create_segment_eq, Hsegs. simpl.
    proc_unfold. reflexivity.
  - unfold bind at 1. unfold pass at 1, ret at 1.
    unfold bind at 1. unfold get at 1. rewrite Hsegs.
    rewrite (last_map_Some (s :: rest) s) by discriminate.
    destruct (buffered (last (s :: rest) s)); simpl.
    + unfold set_segments. proc_unfold. reflexivity.
    + proc_unfold. reflexivity.
Qed.

Lemma flush_character_segment_eq self :
  flush_character_segment self
  = match segments self with
    | [] => (tt, self, [])
    | segment :: rest =>
        (tt,
         {| current_character := current_character self; segments := rest |},
         if buffered segment then
           [downstream (CharacterTagFrame (character segment));
            downstream LLMFullResponseStartFrame;
            downstream (LLMTextFrame (text segment));
            downstream LLMFullResponseEndFrame]
         else [downstream LLMFullResponseEndFrame])
    end.
Proof.
  unfold flush_character_segment, set_segments. proc_unfold.
  destruct (segments self) as [| segment rest]; [reflexivity |].
  destruct (buffered segment); reflexivity.
Qed.

Lemma create_segment_current c self :
  current_character (exec_state (create_segment c) self)
  = current_character self.
Proof. unfold exec_state. rewrite create_segment_eq. reflexivity. Qed.



(** ** The pattern *)

Lemma tag_at_tag s tag post :
  tag_at s = Some (tag, post) -> tag = "AA" \/ tag = "BB".
Proof.
  unfold tag_at. destruct s as [| c1 [| c2 rest]]; try discriminate.
  destruct (Ascii.eqb c1 "A" && Ascii.eqb c2 "A");
    [intros [= <- _]; auto |].
  destruct (Ascii.eqb c1 "B" && Ascii.eqb c2 "B");
    [intros [= <- _]; auto | discriminate].
Qed.

Lemma greedy_groups_tag s pre tag post :
  greedy_groups s = Some (pre, tag, post) -> tag = "AA" \/ tag = "BB".
Proof.
  revert pre tag post.
  induction s as [| c rest IH]; intros pre tag post; cbn [greedy_groups];
    [discriminate |].
  destruct (greedy_groups rest) as [[[pre' tag'] post'] |].
  - intros [= _ <- _]. eapply IH; reflexivity.
  - destruct (tag_at (String c rest)) as [[tag' post'] |] eqn:Htag;
      [| discriminate].
    intros [= _ <- _]. eapply tag_at_tag, Htag.
Qed.

Lemma re_match_tag text pre tag post :
  re_match text = Some (pre, tag, post) -> tag = "AA" \/ tag = "BB".
Proof. apply greedy_groups_tag. Qed.

(** ** Tokens at the tagger *)

Lemma pass_seq {S : Type} (m : Proc S unit) self : (pass ;; m) self = m self.
Proof.
  proc_unfold. destruct (m self) as [[[] self1] out1]. reflexivity.
Qed.

Lemma process_frame_text t direction self :
  Tagger.process_frame (LLMTextFrame t) direction self = process_text t self.
Proof. unfold Tagger.process_frame; simpl. apply pass_seq. Qed.

Lemma on_character_eq c self :
  on_character c self
  = if truthy c && negb (String.eqb c (current_character self)) then
      (tt,
       {| current_character := c;
          segments := segments self
                      ++ [mkSegment c "" (0 <? length (segments self))%nat] |},
       if (0 <? length (segments self))%nat then []
       else [downstream (CharacterTagFrame c);
             downstream LLMFullResponseStartFrame])
    else (tt, self, []).
Proof.
  unfold on_character. unfold bind at 1, get at 1.
  destruct (truthy c && negb (String.eqb c (current_character self))).
  - unfold bind at 1, set_current_character. proc_unfold.
    rewrite create_segment_eq. simpl.
    destruct (0 <? length (segments self))%nat; reflexivity.
  - reflexivity.
Qed.



(** A token that is just the tag of the current character does nothing. *)
Lemma bare_tag_of_current_character c direction self :
  c = "AA" \/ c = "BB" ->
  current_character self = c ->
  Tagger.process_frame (LLMTextFrame c) direction self = (tt, self, []).
Proof.
  intros Htag Hcur. rewrite process_frame_text. unfold process_text.
  assert (Hmatch : re_match c = Some (EmptyString, c, EmptyString))
    by (destruct Htag; subst c; reflexivity).
  assert (Htruthy : truthy c = true) by (destruct Htag; subst c; reflexivity).
  rewrite Hmatch. cbn [truthy]. rewrite pass_seq.
  unfold bind. rewrite on_character_eq.
  rewrite Htruthy, Hcur, String.eqb_refl. reflexivity.
Qed.









(** ** Sequences of frames *)

Lemma exec_state_process_frames_app l1 l2 self :
  exec_state (process_frames (l1 ++ l2)) self
  = exec_state (process_frames l2) (exec_state (process_frames l1) self).
Proof.
  revert self. induction l1 as [| [frame direction] l1 IH]; intros self.
  - reflexivity.
  - cbn [app process_frames]. rewrite !exec_state_seq. apply IH.
Qed.

Lemma exec_out_process_frames_app l1 l2 self :
  exec_out (process_frames (l1 ++ l2)) self
  = exec_out (process_frames l1) self
    ++ exec_out (process_frames l2) (exec_state (process_frames l1) self).
Proof.
  revert self. induction l1 as [| [frame direction] l1 IH]; intros self.
  - reflexivity.
  - cbn [app process_frames]. rewrite !exec_out_seq, exec_state_seq, IH.
    apply app_assoc.
Qed.

(** ** The current character across responses *)

(** C8: the current character starts as AA, and a response start empties the
    queue but leaves the current character as the last response set it.  So
    when a response opens with the tag that is already current, the tag
    starts no segment, and the text after it goes to a default segment of
    AA: with BB current, a response that begins with the tag BB has its text
    sent out under the tag AA.  The last part runs two responses in a row,
    both tagged BB: the text of the second is attributed to AA. *)
Theorem current_character_persists_across_responses :
  current_character init = "AA"
  /\ (forall self direction,
        current_character
          (exec_state
             (Tagger.process_frame LLMFullResponseStartFrame direction) self)
        = current_character self)
  /\ (forall self t,
        current_character self = "BB" ->
        re_match t = None ->
        exec_out
          (process_frames
             [downstream LLMFullResponseStartFrame;
              downstream (LLMTextFrame "BB");
              downstream (LLMTextFrame t)]) self
        = [downstream (CharacterTagFrame "AA");
           downstream LLMFullResponseStartFrame;
           downstream (LLMTextFrame t)])
  /\ collect_segments
       (exec_out
          (process_frames
             (response ["BB"; " hi"] 0 ++ response ["BB"; " there"] 0)) init)
     = [("BB", " hi"); ("AA", " there")].
Proof.
  split; [reflexivity |].
  split; [reflexivity |].
  split; [| reflexivity].
  intros self t Hcur Hmatch. unfold downstream.
  set (self1 := {| current_character := current_character self;
                   segments := [] |}).
  assert (H1 : Tagger.process_frame LLMFullResponseStartFrame DOWNSTREAM self
               = (tt, self1, [])) by reflexivity.
  assert (H2 : Tagger.process_frame (LLMTextFrame "BB") DOWNSTREAM self1
               = (tt, self1, []))
    by (apply bare_tag_of_current_character; [auto | exact Hcur]).
  assert (H3 : Tagger.process_frame (LLMTextFrame t) DOWNSTREAM self1
               = (tt,
                  {| current_character := current_character self1;
                     segments := [mkSegment "AA" "" false] |},
                  [(CharacterTagFrame "AA", DOWNSTREAM);
                   (LLMFullResponseStartFrame, DOWNSTREAM);
                   (LLMTextFrame t, DOWNSTREAM)])).
  { rewrite process_frame_text. unfold process_text.
    rewrite Hmatch, push_text_eq. reflexivity. }
  cbn [process_frames]. rewrite !exec_out_seq, ?exec_state_seq.
  rewrite (exec_out_eq _ _ _ _ H1), (exec_state_eq _ _ _ _ H1).
  rewrite (exec_out_eq _ _ _ _ H2), (exec_state_eq _ _ _ _ H2).
  rewrite (exec_out_eq _ _ _ _ H3). reflexivity.
Qed.

Lemma current_character_persists_across_responses_witness :
  current_character
    (exec_state (process_frames (response ["BB"; " hi"] 0)) init) = "BB"
  /\ re_match " there" = None
  /\ exec_out
       (process_frames
          [downstream LLMFullResponseStartFrame;
           downstream (LLMTextFrame "BB");
           downstream (LLMTextFrame " there")])
       (exec_state (process_frames (response ["BB"; " hi"] 0)) init)
     = [downstream (CharacterTagFrame "AA");
        downstream LLMFullResponseStartFrame;
        downstream (LLMTextFrame " there")].
Proof.
  split; [reflexivity |].
  split; [reflexivity |].
  apply (proj1 (proj2 (proj2 current_character_persists_across_responses))).
  - reflexivity.
  - reflexivity.
Defined.

(** ** The three-segment scenario *)

(** The start of the scenario, from any state of the tagger: whether the
    first tag differs from the current character (and starts the segment
    itself) or equals it (and the text starts the default segment), the same
    three frames go out and the queue holds one live segment of AA. *)
Lemma scenario_first_token self rest :
  process_frames
    (downstream LLMFullResponseStartFrame
     :: downstream (LLMTextFrame "AA Hello ") :: rest) self
  = (tt,
     exec_state (process_frames rest)
       {| current_character := "AA";
          segments := [mkSegment "AA" "" false] |},
     [downstream (CharacterTagFrame "AA");
      downstream LLMFullResponseStartFrame;
      downstream (LLMTextFrame " Hello ")]
     ++ exec_out (process_frames rest)
          {| current_character := "AA";
             segments := [mkSegment "AA" "" false] |}).
Proof.
  set (self1 := {| current_character := current_character self;
                   segments := [] |}).
  set (self2 := {| current_character := "AA";
                   segments := [mkSegment "AA" "" false] |}).
  assert (H1 : Tagger.process_frame LLMFullResponseStartFrame DOWNSTREAM self
               = (tt, self1, [])) by reflexivity.
  assert (H2 : Tagger.process_frame (LLMTextFrame "AA Hello ") DOWNSTREAM
                 self1
               = (tt, self2,
                  [downstream (CharacterTagFrame "AA");
                   downstream LLMFullResponseStartFrame;
                   downstream (LLMTextFrame " Hello ")])).
  { rewrite process_frame_text. unfold process_text.
    change (re_match "AA Hello ")
      with (Some (EmptyString, "AA", " Hello ")).
    cbn [truthy]. rewrite pass_seq. unfold bind at 1.
    rewrite on_character_eq. cbn [truthy andb].
    destruct (String.eqb_spec "AA" (current_character self1)) as [Heq | Hneq];
      cbn [negb]; rewrite push_text_eq.
    - subst self1 self2. simpl in *. rewrite <- Heq. reflexivity.
    - reflexivity. }
  unfold downstream in *. rewrite proc_unit_eta. cbn [process_frames].
  rewrite !exec_state_seq, !exec_out_seq.
  rewrite (exec_out_eq _ _ _ _ H1), !(exec_state_eq _ _ _ _ H1).
  rewrite (exec_out_eq _ _ _ _ H2), !(exec_state_eq _ _ _ _ H2).
  reflexivity.
Qed.

(** C5, as the claim reads, fails: the segments of the scenario carry the
    text that follows each tag as it stands, with its leading space, not the
    texts the claim lists. *)
Lemma scenario_texts_keep_leading_space :
  collect_segments
    (exec_out
       (process_frames (response ["AA Hello "; "BB Hi there"; "AA Goodbye"] 2))
       init)
  <> [("AA", "Hello "); ("BB", "Hi there"); ("AA", "Goodbye")].
Proof. vm_compute. discriminate. Qed.

(** C5, amended: for the tokens "AA Hello ", "BB Hi there", "AA Goodbye"
    between a response start and a response end, from any state of the
    tagger: the first segment (AA, " Hello ") goes out at once, tag, start
    marker and text, as its token arrives; the next two tokens push nothing
    and leave (BB, " Hi there") and (AA, " Goodbye") held in the queue; the
    response end closes the first segment with its end marker and nothing
    more; the first release signal sends the whole of (BB, " Hi there")
    between its own markers, the second the whole of (AA, " Goodbye"); the
    output holds three segments in that order.  Each text is what follows
    the tag in its token, leading space included. *)
Theorem three_segment_scenario :
  forall self,
    let tokens := ["AA Hello "; "BB Hi there"; "AA Goodbye"] in
    let first :=
      [downstream (CharacterTagFrame "AA");
       downstream LLMFullResponseStartFrame;
       downstream (LLMTextFrame " Hello ")] in
    let second :=
      [downstream (CharacterTagFrame "BB");
       downstream LLMFullResponseStartFrame;
       downstream (LLMTextFrame " Hi there");
       downstream LLMFullResponseEndFrame] in
    let third :=
      [downstream (CharacterTagFrame "AA");
       downstream LLMFullResponseStartFrame;
       downstream (LLMTextFrame " Goodbye");
       downstream LLMFullResponseEndFrame] in
    exec_out
      (process_frames
         [downstream LLMFullResponseStartFrame;
          downstream (LLMTextFrame "AA Hello ")]) self = first
    /\ exec_out
         (process_frames
            (downstream LLMFullResponseStartFrame :: token_frames tokens))
         self = first
    /\ segments
         (exec_state
            (process_frames
               (downstream LLMFullResponseStartFrame :: token_frames tokens))
            self)
       = [mkSegment "AA" "" false; mkSegment "BB" " Hi there" true;
          mkSegment "AA" " Goodbye" true]
    /\ exec_out (process_frames (response tokens 0)) self
       = first ++ [downstream LLMFullResponseEndFrame]
    /\ exec_out (process_frames (response tokens 1)) self
       = first ++ [downstream LLMFullResponseEndFrame]
         ++ second ++ [upstream NextCharacterSequenceFrame]
    /\ exec_out (process_frames (response tokens 2)) self
       = first ++ [downstream LLMFullResponseEndFrame]
         ++ second ++ [upstream NextCharacterSequenceFrame]
         ++ third ++ [upstream NextCharacterSequenceFrame]
    /\ segments (exec_state (process_frames (response tokens 2)) self) = []
    /\ collect_segments (exec_out (process_frames (response tokens 2)) self)
       = [("AA", " Hello "); ("BB", " Hi there"); ("AA", " Goodbye")].
Proof.
  intros self tokens first second third.
  subst tokens first second third.
  unfold response, token_frames. cbn [map app repeat].
  repeat split;
    solve [ unfold exec_out; rewrite scenario_first_token; reflexivity
          | unfold exec_state; rewrite scenario_first_token; reflexivity ].
Qed.

(** ** Only the head of the queue is live *)

Lemma append_to_last_held l t :
  Forall (fun s => buffered s = true) l ->
  Forall (fun s => buffered s = true) (append_to_last l t).
Proof.
  induction l as [| a l IH]; intros Hall; [constructor |].
  inversion Hall as [| ? ? Ha Hl]; subst.
  destruct l as [| b l].
  - constructor; [exact Ha | constructor].
  - change (append_to_last (a :: b :: l) t)
      with (a :: append_to_last (b :: l) t).
    constructor; [exact Ha | apply IH, Hl].
Qed.

Lemma only_head_live_append_to_last l t :
  only_head_live l -> only_head_live (append_to_last l t).
Proof.
  unfold only_head_live. destruct l as [| a [| b l]]; intros Hall.
  - constructor.
  - constructor.
  - change (append_to_last (a :: b :: l) t)
      with (a :: append_to_last (b :: l) t).
    apply append_to_last_held, Hall.
Qed.

Lemma only_head_live_new_segment l c :
  only_head_live l ->
  only_head_live (l ++ [mkSegment c "" (0 <? length l)%nat]).
Proof.
  unfold only_head_live. destruct l as [| a l]; intros Hall.
  - constructor.
  - cbn [app tl length]. apply Forall_app. split; [exact Hall |].
    constructor; [reflexivity | constructor].
Qed.

Lemma only_head_live_tl l : only_head_live l -> only_head_live (tl l).
Proof.
  unfold only_head_live. destruct l as [| a [| b l]]; intros Hall;
    try constructor.
  inversion Hall; assumption.
Qed.

Lemma create_segment_only_head_live c self :
  only_head_live (segments self) ->
  only_head_live (segments (exec_state (create_segment c) self)).
Proof.
  intros Hinv. unfold exec_state. rewrite create_segment_eq.
  apply only_head_live_new_segment, Hinv.
Qed.

Lemma push_text_only_head_live t self :
  only_head_live (segments self) ->
  only_head_live (segments (exec_state (push_text t) self)).
Proof.
  intros Hinv. unfold exec_state. rewrite push_text_eq.
  destruct (segments self) as [| s rest] eqn:Hsegs.
  - constructor.
  - destruct (buffered (last (s :: rest) s)); cbn [fst snd segments].
    + apply only_head_live_append_to_last, Hinv.
    + rewrite Hsegs. exact Hinv.
Qed.

Lemma on_character_only_head_live c self :
  only_head_live (segments self) ->
  only_head_live (segments (exec_state (on_character c) self)).
Proof.
  intros Hinv. unfold exec_state. rewrite on_character_eq.
  destruct (truthy c && negb (String.eqb c (current_character self)));
    cbn [fst snd segments].
  - apply only_head_live_new_segment, Hinv.
  - exact Hinv.
Qed.

Lemma flush_only_head_live self :
  only_head_live (segments self) ->
  only_head_live (segments (exec_state flush_character_segment self)).
Proof.
  intros Hinv. unfold exec_state. rewrite flush_character_segment_eq.
  destruct (segments self) as [| s rest] eqn:Hsegs; cbn [fst snd segments].
  - rewrite Hsegs. exact Hinv.
  - apply (only_head_live_tl (s :: rest)), Hinv.
Qed.

Lemma process_text_only_head_live t self :
  only_head_live (segments self) ->
  only_head_live (segments (exec_state (process_text t) self)).
Proof.
  intros Hinv. unfold process_text.
  destruct (re_match t) as [[[pre c] post] |].
  - rewrite !exec_state_seq.
    assert (Hopt : forall t' self',
               only_head_live (segments self') ->
               only_head_live
                 (segments
                    (exec_state (if truthy t' then push_text t' else pass)
                       self'))).
    { intros t' self' H. destruct (truthy t');
        [apply push_text_only_head_live, H | exact H]. }
    apply Hopt, on_character_only_head_live, Hopt, Hinv.
  - apply push_text_only_head_live, Hinv.
Qed.

Lemma process_frame_only_head_live frame direction self :
  only_head_live (segments self) ->
  only_head_live
    (segments (exec_state (Tagger.process_frame frame direction) self)).
Proof.
  intros Hinv.
  destruct frame as [| | t | | k | c | | k]; unfold Tagger.process_frame;
    cbn [isinstance]; rewrite ?exec_state_seq.
  - constructor.
  - apply flush_only_head_live, Hinv.
  - apply process_text_only_head_live, Hinv.
  - exact Hinv.
  - exact Hinv.
  - exact Hinv.
  - apply flush_only_head_live, Hinv.
  - exact Hinv.
Qed.

Lemma process_frames_only_head_live frames self :
  only_head_live (segments self) ->
  only_head_live (segments (exec_state (process_frames frames) self)).
Proof.
  revert self. induction frames as [| [frame direction] frames IH];
    intros self Hinv.
  - exact Hinv.
  - cbn [process_frames]. rewrite exec_state_seq.
    apply IH, process_frame_only_head_live, Hinv.
Qed.

Lemma only_head_live_live_segments l :
  only_head_live l ->
  live_segments l
  = match l with
    | [] => []
    | s :: _ => if buffered s then [] else [s]
    end.
Proof.
  unfold only_head_live, live_segments. destruct l as [| s rest];
    [reflexivity |].
  cbn [tl filter]. intros Hall.
  assert (Hrest : filter (fun s0 => negb (buffered s0)) rest = []).
  { induction Hall as [| x l Hx _ IH]; [reflexivity |].
    cbn [filter]. rewrite Hx. exact IH. }
  rewrite Hrest. destruct (buffered s); reflexivity.
Qed.

(** C4: in the tagger's queue only the head can be unbuffered, every later
    segment is buffered; each call of [process_frame] (for a response start,
    a token, a response end, a release signal or any other frame) keeps it
    so, and it holds in every state the tagger reaches from its initial
    state.  Hence at most one segment of the queue is live at any time, and
    it is the oldest one. *)
Theorem only_the_oldest_segment_is_live :
  forall self frame direction,
    only_head_live (segments self) ->
    only_head_live
      (segments (exec_state (Tagger.process_frame frame direction) self))
    /\ (forall frames,
          let l := segments (exec_state (process_frames frames) init) in
          only_head_live l
          /\ (length (live_segments l) <= 1)%nat
          /\ (forall s, In s (live_segments l) -> hd_error l = Some s)).
Proof.
  intros self frame direction Hinv. split.
  - apply process_frame_only_head_live, Hinv.
  - intros frames l.
    assert (Hl : only_head_live l)
      by (apply process_frames_only_head_live; constructor).
    split; [exact Hl |].
    rewrite (only_head_live_live_segments l Hl).
    destruct l as [| s rest]; cbn; [split; [lia | tauto] |].
    destruct (buffered s); cbn; split; try lia; try tauto.
    intros s' [<- | []]. reflexivity.
Qed.

Lemma only_the_oldest_segment_is_live_witness :
  only_head_live
    [mkSegment "AA" "" false; mkSegment "BB" "held" true]
  /\ only_head_live
       (segments
          (exec_state
             (Tagger.process_frame (LLMTextFrame "AA more") DOWNSTREAM)
             {| current_character := "BB";
                segments := [mkSegment "AA" "" false;
                             mkSegment "BB" "held" true] |})).
Proof.
  assert (H : only_head_live
                [mkSegment "AA" "" false; mkSegment "BB" "held" true])
    by (repeat constructor).
  split.
  - exact H.
  - apply (only_the_oldest_segment_is_live
             {| current_character := "BB";
                segments := [mkSegment "AA" "" false;
                             mkSegment "BB" "held" true] |}
             (LLMTextFrame "AA more") DOWNSTREAM H).
Defined.

(** ** No text is lost between the tokens and the output *)

Lemma string_app_nil_r (s : string) : (s ++ "")%string = s.
Proof. induction s as [| c s IH]; [reflexivity |]. simpl. now rewrite IH. Qed.

Lemma string_app_assoc (s1 s2 s3 : string) :
  (s1 ++ (s2 ++ s3))%string = ((s1 ++ s2) ++ s3)%string.
Proof.
  induction s1 as [| c s1 IH]; [reflexivity |]. simpl. now rewrite IH.
Qed.

Lemma emitted_text_app out1 out2 :
  emitted_text (out1 ++ out2)
  = (emitted_text out1 ++ emitted_text out2)%string.
Proof.
  induction out1 as [| [frame direction] out1 IH]; [reflexivity |].
  destruct frame; cbn [app emitted_text]; rewrite IH; try reflexivity.
  apply string_app_assoc.
Qed.

Lemma pending_app l1 l2 :
  pending (l1 ++ l2) = (pending l1 ++ pending l2)%string.
Proof.
  induction l1 as [| s l1 IH]; [reflexivity |].
  cbn [app pending]. rewrite IH. apply string_app_assoc.
Qed.

Lemma pending_append_to_last l t :
  l <> [] -> pending (append_to_last l t) = (pending l ++ t)%string.
Proof.
  induction l as [| a l IH]; intros Hne; [congruence |].
  destruct l as [| b l].
  - cbn. now rewrite !string_app_nil_r.
  - change (append_to_last (a :: b :: l) t)
      with (a :: append_to_last (b :: l) t).
    cbn [pending]. rewrite IH by discriminate.
    cbn [pending]. apply string_app_assoc.
Qed.

Lemma last_held (l : list Segment) (d : Segment) :
  l <> [] ->
  Forall (fun s => buffered s = true) l -> buffered (last l d) = true.
Proof.
  intros Hne Hall. induction Hall as [| a l Ha Hl IH]; [congruence |].
  destruct l as [| b l]; [exact Ha |].
  change (buffered (last (b :: l) d) = true). apply IH. discriminate.
Qed.

(** A queue in order whose last segment is unbuffered is a single live
    segment without text. *)
Lemma queue_ok_last_live s rest :
  queue_ok (s :: rest) ->
  buffered (last (s :: rest) s) = false ->
  rest = [] /\ text s = EmptyString.
Proof.
  intros [Htext Hrest] Hlast. destruct rest as [| b rest].
  - split; [reflexivity | apply Htext, Hlast].
  - change (buffered (last (b :: rest) s) = false) in Hlast.
    rewrite (last_held (b :: rest) s) in Hlast by (discriminate || exact Hrest).
    discriminate Hlast.
Qed.

Lemma conserves_pass : conserves EmptyString pass.
Proof.
  intros self Hok. split; [exact Hok |].
  cbn. now rewrite ?string_app_nil_r.
Qed.

Lemma conserves_seq t1 t2 m1 m2 :
  conserves t1 m1 -> conserves t2 m2 ->
  conserves (t1 ++ t2)%string (m1 ;; m2).
Proof.
  intros H1 H2 self Hok.
  destruct (H1 self Hok) as [Hok1 Heq1].
  destruct (H2 _ Hok1) as [Hok2 Heq2].
  rewrite exec_state_seq, exec_out_seq. split; [exact Hok2 |].
  rewrite emitted_text_app, <- string_app_assoc, Heq2.
  rewrite !string_app_assoc, Heq1. reflexivity.
Qed.

Lemma conserves_push_frame frame direction :
  isinstance frame cls_LLMTextFrame = false ->
  conserves EmptyString (push_frame frame direction).
Proof.
  intros Hframe self Hok. split; [exact Hok |].
  destruct frame; try discriminate Hframe; cbn;
    now rewrite ?string_app_nil_r.
Qed.

Lemma conserves_push_text t : conserves t (push_text t).
Proof.
  intros self Hok. unfold exec_state, exec_out. rewrite push_text_eq.
  destruct (segments self) as [| s rest] eqn:Hsegs.
  - cbn. split; [split; [reflexivity | constructor] |].
    now rewrite ?string_app_nil_r.
  - destruct (buffered (last (s :: rest) s)) eqn:Hlast; cbn [fst snd segments].
    + split.
      * destruct Hok as [Htext Hrest]. destruct rest as [| b rest].
        -- cbn in *. split; [congruence | constructor].
        -- change (append_to_last (s :: b :: rest) t)
             with (s :: append_to_last (b :: rest) t).
           split; [exact Htext | apply append_to_last_held, Hrest].
      * cbn [emitted_text]. rewrite pending_append_to_last by discriminate.
        reflexivity.
    + rewrite Hsegs. split; [exact Hok |].
      destruct (queue_ok_last_live s rest Hok Hlast) as [-> Htext].
      cbn. rewrite Htext. cbn. now rewrite ?string_app_nil_r.
Qed.

Lemma conserves_optional_push_text t :
  conserves t (if truthy t then push_text t else pass).
Proof.
  destruct t as [| c t]; [apply conserves_pass | apply conserves_push_text].
Qed.

Lemma queue_ok_new_segment l c :
  queue_ok l -> queue_ok (l ++ [mkSegment c "" (0 <? length l)%nat]).
Proof.
  destruct l as [| a l]; intros Hok.
  - cbn. split; [reflexivity | constructor].
  - destruct Hok as [Htext Hrest]. cbn [app queue_ok length].
    split; [exact Htext |].
    apply Forall_app. split; [exact Hrest |].
    constructor; [reflexivity | constructor].
Qed.

Lemma conserves_on_character c : conserves EmptyString (on_character c).
Proof.
  intros self Hok. unfold exec_state, exec_out. rewrite on_character_eq.
  destruct (truthy c && negb (String.eqb c (current_character self)));
    cbn [fst snd segments].
  - split; [apply queue_ok_new_segment, Hok |].
    rewrite pending_app. cbn [pending text].
    destruct (0 <? length (segments self))%nat; reflexivity.
  - split; [exact Hok |]. cbn. now rewrite ?string_app_nil_r.
Qed.

Lemma queue_ok_held l :
  Forall (fun s => buffered s = true) l -> queue_ok l.
Proof.
  intros Hall. destruct Hall as [| a l Ha Hl]; [exact I |].
  split; [congruence | exact Hl].
Qed.

Lemma conserves_flush : conserves EmptyString flush_character_segment.
Proof.
  intros self Hok. unfold exec_state, exec_out.
  rewrite flush_character_segment_eq.
  destruct (segments self) as [| s rest] eqn:Hsegs; cbn [fst snd segments].
  - rewrite Hsegs. split; [exact Hok |]. reflexivity.
  - destruct Hok as [Htext Hrest]. split; [apply queue_ok_held, Hrest |].
    rewrite string_app_nil_r. cbn [pending].
    destruct (buffered s); cbn; rewrite ?string_app_nil_r; [reflexivity |].
    now rewrite Htext.
Qed.

Lemma conserves_process_text t : conserves (contribution t) (process_text t).
Proof.
  unfold contribution, process_text.
  destruct (re_match t) as [[[pre c] post] |].
  - apply conserves_seq; [apply conserves_optional_push_text |].
    change post with (EmptyString ++ post)%string.
    apply conserves_seq;
      [apply conserves_on_character | apply conserves_optional_push_text].
  - apply conserves_push_text.
Qed.

Lemma conserves_process_text_frame t direction :
  conserves (contribution t) (Tagger.process_frame (LLMTextFrame t) direction).
Proof.
  intros self Hok. unfold exec_state, exec_out.
  rewrite process_frame_text. apply conserves_process_text, Hok.
Qed.

Lemma conserves_token_frames tokens :
  conserves (join (map contribution tokens))
    (process_frames (token_frames tokens)).
Proof.
  induction tokens as [| t tokens IH]; [apply conserves_pass |].
  cbn [token_frames map join process_frames downstream].
  apply conserves_seq; [apply conserves_process_text_frame | exact IH].
Qed.

Lemma conserves_release direction :
  conserves EmptyString
    (Tagger.process_frame NextCharacterSequenceFrame direction).
Proof.
  unfold Tagger.process_frame; cbn [isinstance].
  change EmptyString with (EmptyString ++ EmptyString)%string.
  apply conserves_seq; [apply conserves_flush |].
  apply conserves_push_frame. reflexivity.
Qed.

Lemma conserves_releases n :
  conserves EmptyString
    (process_frames (repeat (upstream NextCharacterSequenceFrame) n)).
Proof.
  induction n as [| n IH]; [apply conserves_pass |].
  cbn [repeat process_frames upstream].
  change EmptyString with (EmptyString ++ EmptyString)%string.
  apply conserves_seq; [apply conserves_release | exact IH].
Qed.

Lemma conserves_app t1 t2 l1 l2 :
  conserves t1 (process_frames l1) -> conserves t2 (process_frames l2) ->
  conserves (t1 ++ t2)%string (process_frames (l1 ++ l2)).
Proof.
  intros H1 H2 self Hok.
  destruct (H1 self Hok) as [Hok1 Heq1].
  destruct (H2 _ Hok1) as [Hok2 Heq2].
  rewrite exec_state_process_frames_app, exec_out_process_frames_app.
  split; [exact Hok2 |].
  rewrite emitted_text_app, <- string_app_assoc, Heq2.
  rewrite !string_app_assoc, Heq1. reflexivity.
Qed.

(** The frames that close a response: its end, then the release signals. *)
Lemma conserves_closing n :
  conserves EmptyString
    (process_frames
       (downstream LLMFullResponseEndFrame
        :: repeat (upstream NextCharacterSequenceFrame) n)).
Proof.
  cbn [process_frames downstream].
  change EmptyString with (EmptyString ++ EmptyString)%string.
  apply conserves_seq; [apply conserves_flush | apply conserves_releases].
Qed.

Lemma flush_segments self :
  segments (exec_state flush_character_segment self) = tl (segments self).
Proof.
  unfold exec_state. rewrite flush_character_segment_eq.
  destruct (segments self) as [| s rest] eqn:Hsegs; [exact Hsegs | reflexivity].
Qed.

Lemma release_segments direction self :
  segments
    (exec_state (Tagger.process_frame NextCharacterSequenceFrame direction)
       self)
  = tl (segments self).
Proof.
  unfold Tagger.process_frame; cbn [isinstance].
  rewrite exec_state_seq. apply flush_segments.
Qed.

Lemma releases_segments n self :
  length
    (segments
       (exec_state
          (process_frames (repeat (upstream NextCharacterSequenceFrame) n))
          self))
  = (length (segments self) - n)%nat.
Proof.
  revert self. induction n as [| n IH]; intros self.
  - cbn. lia.
  - cbn [repeat process_frames upstream].
    rewrite exec_state_seq, IH, release_segments.
    destruct (segments self) as [| s rest]; cbn; lia.
Qed.

Lemma closing_empties_queue n self :
  (length (segments self) <= S n)%nat ->
  segments
    (exec_state
       (process_frames
          (downstream LLMFullResponseEndFrame
           :: repeat (upstream NextCharacterSequenceFrame) n)) self)
  = [].
Proof.
  intros Hlen. apply length_zero_iff_nil.
  cbn [process_frames downstream]. rewrite exec_state_seq, releases_segments.
  change (Tagger.process_frame LLMFullResponseEndFrame DOWNSTREAM)
    with flush_character_segment.
  rewrite flush_segments.
  destruct (segments self) as [| s rest]; cbn in *; lia.
Qed.

(** The text a response puts out, once every segment has been flushed, is
    what its tokens contribute, in their order. *)
Lemma response_emitted_text self tokens releases :
  (length
     (segments
        (exec_state
           (process_frames
              (downstream LLMFullResponseStartFrame :: token_frames tokens))
           self))
   <= S releases)%nat ->
  emitted_text (exec_out (process_frames (response tokens releases)) self)
  = join (map contribution tokens).
Proof.
  intros Hlen. unfold response.
  set (closing := downstream LLMFullResponseEndFrame
                  :: repeat (upstream NextCharacterSequenceFrame) releases)
    in *.
  set (self0 := {| current_character := current_character self;
                   segments := [] |}).
  assert (Hstart : Tagger.process_frame LLMFullResponseStartFrame DOWNSTREAM
                     self = (tt, self0, [])) by reflexivity.
  cbn [process_frames downstream] in *.
  rewrite exec_state_seq, (exec_state_eq _ _ _ _ Hstart) in Hlen.
  rewrite exec_out_seq, (exec_out_eq _ _ _ _ Hstart),
    (exec_state_eq _ _ _ _ Hstart).
  cbn [app].
  destruct (conserves_app _ _ _ _ (conserves_token_frames tokens)
              (conserves_closing releases) self0 I) as [_ Heq].
  fold closing in Heq.
  rewrite exec_state_process_frames_app in Heq.
  unfold closing in Heq at 2.
  rewrite (closing_empties_queue releases _ Hlen) in Heq.
  cbn [pending segments self0] in Heq.
  rewrite !string_app_nil_r in Heq. exact Heq.
Qed.

(** ** The pattern against the tags of a token *)

Lemma tag_at_pair c1 c2 rest :
  tag_at (String c1 (String c2 rest))
  = if is_tag_pair c1 c2
    then Some (if Ascii.eqb c1 "A" && Ascii.eqb c2 "A" then "AA" else "BB",
               rest)
    else None.
Proof.
  unfold tag_at, is_tag_pair.
  destruct (Ascii.eqb c1 "A" && Ascii.eqb c2 "A"); [reflexivity |].
  destruct (Ascii.eqb c1 "B" && Ascii.eqb c2 "B"); reflexivity.
Qed.

Lemma count_tags_cons c1 rest :
  count_tags (String c1 rest)
  = ((match rest with
      | String c2 _ => if is_tag_pair c1 c2 then 1 else 0
      | EmptyString => 0
      end) + count_tags rest)%nat.
Proof. reflexivity. Qed.

Lemma strip_tags_pair c1 c2 rest :
  strip_tags (String c1 (String c2 rest))
  = if is_tag_pair c1 c2 then strip_tags rest
    else String c1 (strip_tags (String c2 rest)).
Proof. reflexivity. Qed.

Lemma tag_free_strip s : count_tags s = 0%nat -> strip_tags s = s.
Proof.
  induction s as [| c1 rest IH]; [reflexivity |].
  rewrite count_tags_cons. intros Hcount.
  destruct rest as [| c2 rest']; [reflexivity |].
  rewrite strip_tags_pair.
  destruct (is_tag_pair c1 c2); [lia |].
  rewrite IH by lia. reflexivity.
Qed.

Lemma tag_free_no_match s : count_tags s = 0%nat -> greedy_groups s = None.
Proof.
  induction s as [| c1 rest IH]; [reflexivity |].
  rewrite count_tags_cons. intros Hcount. cbn [greedy_groups].
  rewrite IH by lia.
  destruct rest as [| c2 rest']; [reflexivity |].
  rewrite tag_at_pair. destruct (is_tag_pair c1 c2); [lia | reflexivity].
Qed.

Lemma no_match_tag_free s : greedy_groups s = None -> count_tags s = 0%nat.
Proof.
  induction s as [| c1 rest IH]; [reflexivity |].
  cbn [greedy_groups]. rewrite count_tags_cons.
  destruct (greedy_groups rest) as [[[pre tag] post] |]; [discriminate |].
  destruct rest as [| c2 rest'].
  - intros _. reflexivity.
  - rewrite tag_at_pair. destruct (is_tag_pair c1 c2); [discriminate |].
    intros _. rewrite IH; reflexivity.
Qed.

(** With at most one tag in [s], the groups around the match are [s] with
    its tag removed. *)
Lemma single_tag_groups s :
  (count_tags s <= 1)%nat ->
  match greedy_groups s with
  | Some (pre, _, post) => (pre ++ post)%string = strip_tags s
  | None => s = strip_tags s
  end.
Proof.
  induction s as [| c1 rest IH]; [reflexivity |].
  rewrite count_tags_cons. intros Hcount. cbn [greedy_groups].
  destruct (greedy_groups rest) as [[[pre tag] post] |] eqn:Hrest.
  - assert (Hsome : count_tags rest <> 0%nat).
    { intros H0. rewrite (tag_free_no_match rest H0) in Hrest.
      discriminate Hrest. }
    destruct rest as [| c2 rest']; [discriminate Hrest |].
    rewrite strip_tags_pair.
    destruct (is_tag_pair c1 c2); [lia |].
    cbn [append]. rewrite IH by lia. reflexivity.
  - pose proof (no_match_tag_free rest Hrest) as Hfree.
    destruct rest as [| c2 rest']; [reflexivity |].
    rewrite tag_at_pair, strip_tags_pair.
    destruct (is_tag_pair c1 c2).
    + cbn [append]. symmetry. apply tag_free_strip.
      rewrite count_tags_cons in Hfree. lia.
    + rewrite (tag_free_strip (String c2 rest') Hfree). reflexivity.
Qed.

Lemma first_line_whole s : has_line_feed s = false -> first_line s = s.
Proof.
  induction s as [| c rest IH]; [reflexivity |].
  cbn [has_line_feed first_line]. intros H.
  apply orb_false_elim in H as [Hc Hrest].
  rewrite Hc, IH by exact Hrest. reflexivity.
Qed.

Lemma count_tags_first_line s :
  (count_tags (first_line s) <= count_tags s)%nat.
Proof.
  induction s as [| c1 rest IH]; [apply le_n |].
  cbn [first_line]. destruct (Ascii.eqb c1 line_feed); [cbn; lia |].
  rewrite !count_tags_cons.
  destruct rest as [| c2 rest']; [cbn; lia |].
  cbn [first_line] in *. destruct (Ascii.eqb c2 line_feed).
  - cbn [count_tags] in *. lia.
  - lia.
Qed.

(** On a well-tagged token, the tagger keeps the token's text without its
    tag. *)
Lemma well_tagged_contribution token :
  well_tagged token = true -> contribution token = strip_tags token.
Proof.
  unfold well_tagged, contribution, re_match. intros Hwell.
  apply orb_true_iff in Hwell as [Hzero | Hone].
  - apply Nat.eqb_eq in Hzero.
    rewrite tag_free_no_match
      by (pose proof (count_tags_first_line token); lia).
    symmetry. apply tag_free_strip, Hzero.
  - apply andb_true_iff in Hone as [Hcount Hline].
    apply Nat.eqb_eq in Hcount. apply negb_true_iff in Hline.
    rewrite (first_line_whole token Hline).
    pose proof (single_tag_groups token) as Hgroups.
    destruct (greedy_groups token) as [[[pre tag] post] |];
      apply Hgroups; lia.
Qed.

Lemma well_tagged_contributions tokens :
  forallb well_tagged tokens = true ->
  join (map contribution tokens) = join (map strip_tags tokens).
Proof.
  induction tokens as [| t tokens IH]; [reflexivity |].
  cbn [forallb map join]. intros H.
  apply andb_true_iff in H as [Ht Htokens].
  rewrite (well_tagged_contribution t Ht), IH by exact Htokens.
  reflexivity.
Qed.

(** Removing the tags of a text made of two parts: part by part, unless a
    tag symbol is formed across the boundary. *)
Lemma last_char_cons c1 c2 rest :
  last_char (String c1 (String c2 rest)) = last_char (String c2 rest).
Proof.
  change (last_char (String c1 (String c2 rest)))
    with (match last_char (String c2 rest) with
          | Some c' => Some c'
          | None => Some c1
          end).
  cbn [last_char]. destruct (last_char rest); reflexivity.
Qed.

Lemma straddles_cons c1 c2 rest s2 :
  straddles (String c1 (String c2 rest)) s2 = straddles (String c2 rest) s2.
Proof. unfold straddles. rewrite last_char_cons. reflexivity. Qed.

Lemma straddles_tail c rest s2 :
  straddles (String c rest) s2 = false -> straddles rest s2 = false.
Proof.
  destruct rest as [| c2 rest']; [reflexivity |].
  rewrite straddles_cons. exact (fun H => H).
Qed.

Lemma strip_tags_app_pair s1 :
  (forall s2,
     straddles s1 s2 = false ->
     strip_tags (s1 ++ s2) = (strip_tags s1 ++ strip_tags s2)%string)
  /\ (forall c s2,
        straddles (String c s1) s2 = false ->
        strip_tags (String c s1 ++ s2)
        = (strip_tags (String c s1) ++ strip_tags s2)%string).
Proof.
  induction s1 as [| c2 rest [IHrest IHcons]].
  - split; [reflexivity |].
    intros c s2 Hfree. destruct s2 as [| c' s2']; [reflexivity |].
    cbn [append]. rewrite strip_tags_pair.
    unfold straddles in Hfree; cbn [last_char] in Hfree. rewrite Hfree.
    reflexivity.
  - split; [exact (IHcons c2) |].
    intros c s2 Hfree. cbn [append]. rewrite !strip_tags_pair.
    rewrite straddles_cons in Hfree.
    destruct (is_tag_pair c c2).
    + apply IHrest. eapply straddles_tail, Hfree.
    + change (String c2 (rest ++ s2)) with (String c2 rest ++ s2)%string.
      rewrite (IHcons c2 s2 Hfree). reflexivity.
Qed.

Lemma strip_tags_app s1 s2 :
  straddles s1 s2 = false ->
  strip_tags (s1 ++ s2) = (strip_tags s1 ++ strip_tags s2)%string.
Proof. apply (proj1 (strip_tags_app_pair s1)). Qed.

Lemma strip_tags_join tokens :
  tags_within_tokens tokens = true ->
  strip_tags (join tokens) = join (map strip_tags tokens).
Proof.
  induction tokens as [| t tokens IH]; [reflexivity |].
  cbn [tags_within_tokens join map]. intros H.
  apply andb_true_iff in H as [Hfree Htokens].
  apply negb_true_iff in Hfree.
  rewrite (strip_tags_app _ _ Hfree), (IH Htokens). reflexivity.
Qed.

(** C3, as the claim reads, fails, in two ways.  Of a token with two tags
    the tagger takes the last for the tag and sends the first out as text.
    And a tag symbol split over two tokens is no tag to the tagger, which
    looks at one token at a time: both halves go out as text. *)
Lemma not_every_tag_symbol_is_stripped :
  (let tokens := ["AA one BB two"] in
   (length
      (segments
         (exec_state
            (process_frames
               (downstream LLMFullResponseStartFrame :: token_frames tokens))
            init))
    <= 2)%nat
   /\ emitted_text (exec_out (process_frames (response tokens 1)) init)
      = "AA one  two"
   /\ join (map strip_tags tokens) = " one  two"
   /\ strip_tags (join tokens) = " one  two"
   /\ emitted_text (exec_out (process_frames (response tokens 1)) init)
      <> strip_tags (join tokens))
  /\ (let tokens := ["A"; "A hi"] in
      forallb well_tagged tokens = true
      /\ tags_within_tokens tokens = false
      /\ (length
            (segments
               (exec_state
                  (process_frames
                     (downstream LLMFullResponseStartFrame
                      :: token_frames tokens))
                  init))
          <= 1)%nat
      /\ emitted_text (exec_out (process_frames (response tokens 0)) init)
         = "AA hi"
      /\ strip_tags (join tokens) = " hi"
      /\ emitted_text (exec_out (process_frames (response tokens 0)) init)
         <> strip_tags (join tokens)).
Proof.
  cbv zeta. repeat split.
  - vm_compute. lia.
  - vm_compute. discriminate.
  - vm_compute. lia.
  - vm_compute. discriminate.
Qed.

(** C3, amended: for every response whose tokens each hold no tag symbol,
    or hold exactly one tag symbol and no line feed, in which no tag symbol
    is split over tokens, and with release signals supplied for every
    segment still queued at the response end, the text of the text frames
    the tagger pushes, joined in the order pushed, is the whole input text
    (the tokens' text joined in order) with every tag symbol removed; it is
    also the tokens' text, each with its tag removed, joined in order.  This
    from any state of the tagger. *)
Theorem emitted_text_is_input_without_tags :
  forall self tokens releases,
    forallb well_tagged tokens = true ->
    tags_within_tokens tokens = true ->
    (length
       (segments
          (exec_state
             (process_frames
                (downstream LLMFullResponseStartFrame :: token_frames tokens))
             self))
     <= S releases)%nat ->
    emitted_text (exec_out (process_frames (response tokens releases)) self)
    = strip_tags (join tokens)
    /\ emitted_text (exec_out (process_frames (response tokens releases)) self)
       = join (map strip_tags tokens).
Proof.
  intros self tokens releases Hwell Hwithin Hlen.
  rewrite (response_emitted_text self tokens releases Hlen).
  rewrite (strip_tags_join tokens Hwithin).
  split; apply well_tagged_contributions, Hwell.
Qed.

Lemma emitted_text_is_input_without_tags_witness :
  let tokens := ["AA"; " Once upon"; " a time, "; "BB"; " I said."] in
  forallb well_tagged tokens = true
  /\ tags_within_tokens tokens = true
  /\ emitted_text (exec_out (process_frames (response tokens 1)) init)
     = strip_tags "AA Once upon a time, BB I said.".
Proof.
  cbv zeta.
  split; [reflexivity |].
  split; [reflexivity |].
  apply (emitted_text_is_input_without_tags init
           ["AA"; " Once upon"; " a time, "; "BB"; " I said."] 1).
  - reflexivity.
  - reflexivity.
  - vm_compute. lia.
Defined.

(** Of a token with a line feed after its tag, the tagger keeps the first
    line only: here nothing at all goes out. *)
Lemma text_after_line_feed_is_dropped :
  let token := ("AA" ++ String line_feed "Hello")%string in
  well_tagged token = false
  /\ exec_out (process_frames (response [token] 0)) init = []
  /\ strip_tags token = String line_feed "Hello".
Proof. repeat split. Qed.

(** ** The release protocol between sequencer, gates and tagger *)

(** The sequencer answers each response end with one release signal sent
    upstream, before it forwards the frame; every other frame it forwards and
    nothing more. *)
Lemma sequencer_process_frame_out frame direction :
  exec_out (Sequencer.process_frame frame direction) tt
  = if isinstance frame cls_LLMFullResponseEndFrame
    then [upstream NextCharacterSequenceFrame; (frame, direction)]
    else [(frame, direction)].
Proof. destruct frame; reflexivity. Qed.

(** After a tag frame, of two gates for different characters at most one is
    open, and the one the tag names is. *)
Lemma gates_exclusive_after_tag g1 g2 c direction :
  Gate.character g1 <> Gate.character g2 ->
  let g1' :=
    exec_state (Gate.process_frame (CharacterTagFrame c) direction) g1 in
  let g2' :=
    exec_state (Gate.process_frame (CharacterTagFrame c) direction) g2 in
  Gate.open g1' && Gate.open g2' = false
  /\ (c = Gate.character g1 -> Gate.open g1' = true)
  /\ (c = Gate.character g2 -> Gate.open g2' = true).
Proof.
  intros Hdiff g1' g2'. subst g1' g2'. rewrite !gate_process_frame_open.
  destruct (String.eqb_spec c (Gate.character g1)) as [H1 | H1];
    destruct (String.eqb_spec c (Gate.character g2)) as [H2 | H2];
    repeat split; try reflexivity; try congruence.
Qed.

(** A flush with a held segment at the head of the queue pushes that
    segment in one piece, between its own markers, and leaves the rest of the
    queue as it is. *)
Lemma flush_releases_held_head self segment rest :
  segments self = segment :: rest ->
  buffered segment = true ->
  exec_out flush_character_segment self
  = [downstream (CharacterTagFrame (character segment));
     downstream LLMFullResponseStartFrame;
     downstream (LLMTextFrame (text segment));
     downstream LLMFullResponseEndFrame]
  /\ segments (exec_state flush_character_segment self) = rest.
Proof.
  intros Hsegs Hheld. unfold exec_out, exec_state.
  rewrite flush_character_segment_eq, Hsegs, Hheld. split; reflexivity.
Qed.

(** * Further properties of the code *)

(** ** The pattern of the tagger *)

Lemma tag_at_recompose s tag post :
  tag_at s = Some (tag, post) -> s = (tag ++ post)%string.
Proof.
  unfold tag_at. destruct s as [| c1 [| c2 rest]]; try discriminate.
  destruct (Ascii.eqb c1 "A" && Ascii.eqb c2 "A") eqn:HA.
  - intros [= <- <-]. apply andb_true_iff in HA as [H1 H2].
    apply Ascii.eqb_eq in H1, H2. subst. reflexivity.
  - destruct (Ascii.eqb c1 "B" && Ascii.eqb c2 "B") eqn:HB; [| discriminate].
    intros [= <- <-]. apply andb_true_iff in HB as [H1 H2].
    apply Ascii.eqb_eq in H1, H2. subst. reflexivity.
Qed.

Lemma greedy_groups_recompose s pre tag post :
  greedy_groups s = Some (pre, tag, post) ->
  s = (pre ++ tag ++ post)%string.
Proof.
  revert pre tag post. induction s as [| c rest IH]; intros pre tag post;
    cbn [greedy_groups]; [discriminate |].
  destruct (greedy_groups rest) as [[[pre' tag'] post'] |].
  - intros [= <- <- <-]. cbn [append]. f_equal. apply IH. reflexivity.
  - destruct (tag_at (String c rest)) as [[tag' post'] |] eqn:Htag;
      [| discriminate].
    intros [= <- <- <-]. cbn [append]. apply tag_at_recompose, Htag.
Qed.

Lemma greedy_groups_last s pre tag post :
  greedy_groups s = Some (pre, tag, post) -> count_tags post = 0%nat.
Proof.
  revert pre tag post. induction s as [| c rest IH]; intros pre tag post;
    cbn [greedy_groups]; [discriminate |].
  destruct (greedy_groups rest) as [[[pre' tag'] post'] |] eqn:Hrest.
  - intros [= _ _ <-]. eapply IH. reflexivity.
  - pose proof (no_match_tag_free rest Hrest) as Hfree.
    destruct rest as [| c2 rest']; [discriminate |].
    rewrite tag_at_pair. destruct (is_tag_pair c c2); [| discriminate].
    intros [= _ _ <-]. rewrite count_tags_cons in Hfree. lia.
Qed.

Lemma has_line_feed_app s1 s2 :
  has_line_feed (s1 ++ s2)
  = has_line_feed s1 || has_line_feed s2.
Proof.
  induction s1 as [| c s1 IH]; [reflexivity |].
  cbn [append has_line_feed]. rewrite IH. apply orb_assoc.
Qed.

Lemma first_line_no_line_feed s : has_line_feed (first_line s) = false.
Proof.
  induction s as [| c rest IH]; [reflexivity |].
  cbn [first_line]. destruct (Ascii.eqb c line_feed) eqn:Hc; [reflexivity |].
  cbn [has_line_feed]. rewrite Hc, IH. reflexivity.
Qed.

(** X1: when the pattern matches, its three groups put together are the
    first line of the text; the tag is AA or BB and it is the last tag of
    that line, no tag being left in the third group; neither text group
    holds a line feed. *)
Theorem re_match_groups_are_the_first_line :
  forall text pre tag post,
    re_match text = Some (pre, tag, post) ->
    first_line text = (pre ++ tag ++ post)%string
    /\ (tag = "AA" \/ tag = "BB")
    /\ count_tags post = 0%nat
    /\ has_line_feed pre = false
    /\ has_line_feed post = false.
Proof.
  intros text pre tag post Hmatch. unfold re_match in Hmatch.
  pose proof (greedy_groups_recompose _ _ _ _ Hmatch) as Hline.
  pose proof (first_line_no_line_feed text) as Hfeed.
  rewrite Hline, !has_line_feed_app in Hfeed.
  apply orb_false_elim in Hfeed as [Hpre Hrest].
  apply orb_false_elim in Hrest as [_ Hpost].
  repeat split.
  - exact Hline.
  - eapply greedy_groups_tag, Hmatch.
  - eapply greedy_groups_last, Hmatch.
  - exact Hpre.
  - exact Hpost.
Qed.

Lemma re_match_groups_are_the_first_line_witness :
  re_match ("AA said BB, and left" ++ String line_feed "BB next")
  = Some ("AA said ", "BB", ", and left")
  /\ first_line ("AA said BB, and left" ++ String line_feed "BB next")
     = ("AA said " ++ "BB" ++ ", and left")%string.
Proof.
  split.
  - reflexivity.
  - apply (re_match_groups_are_the_first_line
             ("AA said BB, and left" ++ String line_feed "BB next")
             "AA said " "BB" ", and left").
    reflexivity.
Defined.

(** X2: the pattern fails to match exactly when the first line of the text
    holds no tag; tags after the first line feed are not seen. *)
Theorem re_match_fails_iff_first_line_has_no_tag :
  forall text,
    re_match text = None <-> count_tags (first_line text) = 0%nat.
Proof.
  intros text. unfold re_match. split.
  - apply no_match_tag_free.
  - apply tag_free_no_match.
Qed.

(** ** Tokens without a tag *)

Lemma untagged_process_frame t direction self :
  untagged t = true ->
  Tagger.process_frame (LLMTextFrame t) direction self = push_text t self.
Proof.
  unfold untagged. intros Hun. rewrite process_frame_text.
  unfold process_text. destruct (re_match t); [discriminate Hun | reflexivity].
Qed.

Lemma untagged_tokens_stream s self tokens :
  segments self = [s] -> buffered s = false ->
  forallb untagged tokens = true ->
  process_frames (token_frames tokens) self = (tt, self, token_frames tokens).
Proof.
  intros Hsegs Hlive. induction tokens as [| t tokens IH]; intros Hall;
    [reflexivity |].
  cbn [forallb] in Hall. apply andb_true_iff in Hall as [Ht Htokens].
  assert (Hstep : Tagger.process_frame (LLMTextFrame t) DOWNSTREAM self
                  = (tt, self, [downstream (LLMTextFrame t)])).
  { rewrite (untagged_process_frame t DOWNSTREAM self Ht), push_text_eq.
    rewrite Hsegs. cbn [last]. rewrite Hlive. reflexivity. }
  rewrite proc_unit_eta. cbn [token_frames map process_frames downstream].
  rewrite exec_state_seq, exec_out_seq.
  rewrite (exec_state_eq _ _ _ _ Hstep), (exec_out_eq _ _ _ _ Hstep).
  fold (token_frames tokens).
  rewrite (exec_state_eq _ _ _ _ (IH Htokens)).
  rewrite (exec_out_eq _ _ _ _ (IH Htokens)). reflexivity.
Qed.

(** X3: a response none of whose tokens holds a tag is sent on as one
    segment of the default character AA, whatever the current character:
    the tag AA and the start marker go out with the first token, and every
    token goes out as it comes, one text frame per token with the token's
    text unchanged; nothing is buffered. *)
Theorem untagged_response_streams_as_default_segment :
  forall self t tokens,
    forallb untagged (t :: tokens) = true ->
    process_frames
      (downstream LLMFullResponseStartFrame :: token_frames (t :: tokens))
      self
    = (tt,
       {| current_character := current_character self;
          segments := [mkSegment "AA" "" false] |},
       downstream (CharacterTagFrame "AA")
       :: downstream LLMFullResponseStartFrame
       :: token_frames (t :: tokens)).
Proof.
  intros self t tokens Hall.
  cbn [forallb] in Hall. apply andb_true_iff in Hall as [Ht Htokens].
  set (self0 := {| current_character := current_character self;
                   segments := [] |}).
  set (self1 := {| current_character := current_character self;
                   segments := [mkSegment "AA" "" false] |}).
  assert (H0 : Tagger.process_frame LLMFullResponseStartFrame DOWNSTREAM self
               = (tt, self0, [])) by reflexivity.
  assert (H1 : Tagger.process_frame (LLMTextFrame t) DOWNSTREAM self0
               = (tt, self1,
                  [downstream (CharacterTagFrame "AA");
                   downstream LLMFullResponseStartFrame;
                   downstream (LLMTextFrame t)])).
  { rewrite (untagged_process_frame t DOWNSTREAM self0 Ht), push_text_eq.
    reflexivity. }
  assert (H2 : process_frames (token_frames tokens) self1
               = (tt, self1, token_frames tokens))
    by (apply (untagged_tokens_stream (mkSegment "AA" "" false));
        [reflexivity | reflexivity | exact Htokens]).
  rewrite proc_unit_eta.
  cbn [token_frames map process_frames downstream].
  rewrite !exec_state_seq, !exec_out_seq.
  rewrite (exec_out_eq _ _ _ _ H0), !(exec_state_eq _ _ _ _ H0).
  rewrite (exec_out_eq _ _ _ _ H1), !(exec_state_eq _ _ _ _ H1).
  fold (token_frames tokens).
  rewrite (exec_out_eq _ _ _ _ H2), (exec_state_eq _ _ _ _ H2).
  reflexivity.
Qed.

Lemma untagged_response_streams_as_default_segment_witness :
  forallb untagged ["Once "; "upon a time"] = true
  /\ exec_out
       (process_frames
          (downstream LLMFullResponseStartFrame
           :: token_frames ["Once "; "upon a time"]))
       {| current_character := "BB"; segments := [] |}
     = [downstream (CharacterTagFrame "AA");
        downstream LLMFullResponseStartFrame;
        downstream (LLMTextFrame "Once ");
        downstream (LLMTextFrame "upon a time")].
Proof.
  split; [reflexivity |].
  unfold exec_out.
  rewrite (untagged_response_streams_as_default_segment
             {| current_character := "BB"; segments := [] |}
             "Once " ["upon a time"]).
  - reflexivity.
  - reflexivity.
Defined.

(** ** Tokens behind a held segment *)

Lemma last_map {A B : Type} (f : A -> B) (l : list A) (d : A) (d' : B) :
  l <> [] -> last (map f l) d' = f (last l d).
Proof.
  induction l as [| a l IH]; intros Hne; [congruence |].
  destruct l as [| b l]; [reflexivity |].
  change (last (map f (b :: l)) d' = f (last (b :: l) d)).
  apply IH. discriminate.
Qed.

Lemma map_buffered_append_to_last l t :
  map buffered (append_to_last l t) = map buffered l.
Proof.
  induction l as [| a l IH]; [reflexivity |].
  destruct l as [| b l]; [reflexivity |].
  change (append_to_last (a :: b :: l) t)
    with (a :: append_to_last (b :: l) t).
  cbn [map]. f_equal. exact IH.
Qed.

Lemma length_append_to_last l t : length (append_to_last l t) = length l.
Proof.
  rewrite <- (length_map buffered), map_buffered_append_to_last.
  apply length_map.
Qed.

Lemma last_is_held_nonempty l : last_is_held l = true -> l <> [].
Proof. destruct l; [discriminate | discriminate]. Qed.

Lemma buffers_pass : buffers EmptyString pass.
Proof.
  intros self Hheld. repeat split; try exact Hheld.
  - cbn. now rewrite string_app_nil_r.
  - apply le_n.
Qed.

Lemma buffers_seq t1 t2 m1 m2 :
  buffers t1 m1 -> buffers t2 m2 -> buffers (t1 ++ t2)%string (m1 ;; m2).
Proof.
  intros H1 H2 self Hheld.
  destruct (H1 self Hheld) as (Hout1 & Hheld1 & Hpend1 & Hlen1).
  destruct (H2 _ Hheld1) as (Hout2 & Hheld2 & Hpend2 & Hlen2).
  rewrite exec_state_seq, exec_out_seq, Hout1, Hout2.
  repeat split.
  - exact Hheld2.
  - rewrite Hpend2, Hpend1. symmetry. apply string_app_assoc.
  - exact (Nat.le_trans _ _ _ Hlen1 Hlen2).
Qed.

Lemma buffers_push_text t : buffers t (push_text t).
Proof.
  intros self Hheld. unfold exec_out, exec_state. rewrite push_text_eq.
  pose proof (last_is_held_nonempty _ Hheld) as Hne.
  destruct (segments self) as [| s rest] eqn:Hsegs; [congruence |].
  unfold last_is_held in Hheld.
  rewrite (last_map buffered (s :: rest) s false Hne) in Hheld.
  rewrite Hheld. cbn [fst snd segments]. repeat split.
  - unfold last_is_held. rewrite map_buffered_append_to_last.
    rewrite (last_map buffered (s :: rest) s false Hne). exact Hheld.
  - apply pending_append_to_last, Hne.
  - rewrite length_append_to_last. apply le_n.
Qed.

Lemma buffers_optional_push_text t :
  buffers t (if truthy t then push_text t else pass).
Proof.
  destruct t as [| c t]; [apply buffers_pass | apply buffers_push_text].
Qed.

Lemma buffers_on_character c : buffers EmptyString (on_character c).
Proof.
  intros self Hheld. unfold exec_out, exec_state. rewrite on_character_eq.
  pose proof (last_is_held_nonempty _ Hheld) as Hne.
  destruct (truthy c && negb (String.eqb c (current_character self)));
    cbn [fst snd segments].
  - destruct (segments self) as [| s rest] eqn:Hsegs; [congruence |].
    cbn [length Nat.ltb Nat.leb]. repeat split.
    + unfold last_is_held. rewrite map_app. apply last_last.
    + rewrite pending_app. reflexivity.
    + rewrite length_app. cbn [length]. lia.
  - repeat split; try exact Hheld.
    + now rewrite string_app_nil_r.
    + apply le_n.
Qed.

(** X4: while the last segment of the queue is held, the tagger pushes no
    frame for a token, whatever the token holds: no segment leaves the
    queue, and the last segment is still a held one afterwards.  When the
    token holds no tag symbol, or exactly one tag symbol and no line feed,
    its text with the tag removed is added at the end of the text held in
    the queue. *)
Theorem token_behind_held_segment_is_buffered :
  forall self t direction,
    last_is_held (segments self) = true ->
    let self' :=
      exec_state (Tagger.process_frame (LLMTextFrame t) direction) self in
    exec_out (Tagger.process_frame (LLMTextFrame t) direction) self = []
    /\ last_is_held (segments self') = true
    /\ (length (segments self) <= length (segments self'))%nat
    /\ (well_tagged t = true ->
        pending (segments self')
        = (pending (segments self) ++ strip_tags t)%string).
Proof.
  intros self t direction Hheld self'. subst self'.
  unfold exec_out, exec_state. rewrite process_frame_text.
  assert (H : buffers (contribution t) (process_text t)).
  { unfold contribution, process_text.
    destruct (re_match t) as [[[pre c] post] |].
    - apply buffers_seq; [apply buffers_optional_push_text |].
      change post with (EmptyString ++ post)%string.
      apply buffers_seq;
        [apply buffers_on_character | apply buffers_optional_push_text].
    - apply buffers_push_text. }
  destruct (H self Hheld) as (Hout & Hlast & Hpending & Hlen).
  repeat split; try assumption.
  intros Hwell. rewrite <- (well_tagged_contribution t Hwell).
  exact Hpending.
Qed.

Lemma token_behind_held_segment_is_buffered_witness :
  let self :=
    {| current_character := "BB";
       segments := [mkSegment "AA" "" false; mkSegment "BB" " hi" true] |} in
  let self' :=
    exec_state
      (Tagger.process_frame (LLMTextFrame " you AA then") DOWNSTREAM) self in
  last_is_held (segments self) = true
  /\ well_tagged " you AA then" = true
  /\ exec_out
       (Tagger.process_frame (LLMTextFrame " you AA then") DOWNSTREAM) self
     = []
  /\ pending (segments self') = " hi you  then".
Proof.
  cbv zeta.
  pose proof (token_behind_held_segment_is_buffered
                {| current_character := "BB";
                   segments := [mkSegment "AA" "" false;
                                mkSegment "BB" " hi" true] |}
                " you AA then" DOWNSTREAM eq_refl) as H.
  cbv zeta in H. destruct H as (Hout & _ & _ & Hpending).
  split; [reflexivity |].
  split; [reflexivity |].
  split; [exact Hout |].
  rewrite (Hpending eq_refl). reflexivity.
Defined.

(** ** Text under any order of tokens, response ends and release signals *)

Lemma text_contributions_cons p frames :
  text_contributions (p :: frames)
  = (text_contributions [p] ++ text_contributions frames)%string.
Proof.
  destruct p as [frame direction].
  destruct frame; cbn [text_contributions]; try reflexivity.
  now rewrite string_app_nil_r.
Qed.

Lemma conserves_process_frame frame direction :
  is_response_start (frame, direction) = false ->
  conserves (text_contributions [(frame, direction)])
    (Tagger.process_frame frame direction).
Proof.
  intros Hstart.
  destruct frame as [| | t | | k | c | | k]; cbn [text_contributions].
  - discriminate Hstart.
  - apply conserves_flush.
  - rewrite string_app_nil_r. apply conserves_process_text_frame.
  - unfold Tagger.process_frame; cbn [isinstance].
    change EmptyString with (EmptyString ++ EmptyString)%string.
    apply conserves_seq;
      [apply conserves_pass | apply conserves_push_frame; reflexivity].
  - unfold Tagger.process_frame; cbn [isinstance].
    change EmptyString with (EmptyString ++ EmptyString)%string.
    apply conserves_seq;
      [apply conserves_pass | apply conserves_push_frame; reflexivity].
  - unfold Tagger.process_frame; cbn [isinstance].
    change EmptyString with (EmptyString ++ EmptyString)%string.
    apply conserves_seq;
      [apply conserves_pass | apply conserves_push_frame; reflexivity].
  - apply conserves_release.
  - unfold Tagger.process_frame; cbn [isinstance].
    change EmptyString with (EmptyString ++ EmptyString)%string.
    apply conserves_seq;
      [apply conserves_pass | apply conserves_push_frame; reflexivity].
Qed.

Lemma conserves_process_frames frames :
  forallb (fun p => negb (is_response_start p)) frames = true ->
  conserves (text_contributions frames) (process_frames frames).
Proof.
  induction frames as [| [frame direction] frames IH]; intros Hall;
    [apply conserves_pass |].
  cbn [forallb] in Hall. apply andb_true_iff in Hall as [Hp Hframes].
  apply negb_true_iff in Hp.
  rewrite text_contributions_cons. cbn [process_frames].
  apply conserves_seq; [apply conserves_process_frame, Hp | apply IH, Hframes].
Qed.

Lemma process_frame_queue_ok frame direction self :
  queue_ok (segments self) ->
  queue_ok (segments (exec_state (Tagger.process_frame frame direction) self)).
Proof.
  intros Hok.
  destruct (is_response_start (frame, direction)) eqn:Hstart.
  - destruct frame; try discriminate Hstart. exact I.
  - apply (conserves_process_frame frame direction Hstart self Hok).
Qed.

Lemma process_frames_queue_ok frames self :
  queue_ok (segments self) ->
  queue_ok (segments (exec_state (process_frames frames) self)).
Proof.
  revert self. induction frames as [| [frame direction] frames IH];
    intros self Hok; [exact Hok |].
  cbn [process_frames]. rewrite exec_state_seq.
  apply IH, process_frame_queue_ok, Hok.
Qed.

Lemma well_tagged_text_contributions frames :
  well_tagged_frames frames = true ->
  text_contributions frames = text_without_tags frames.
Proof.
  induction frames as [| [frame direction] frames IH]; [reflexivity |].
  unfold well_tagged_frames. cbn [forallb fst]. intros Hall.
  apply andb_true_iff in Hall as [Hframe Hframes].
  destruct frame as [| | t | | k | c | | k];
    cbn [text_contributions text_without_tags]; try (apply IH, Hframes).
  rewrite (well_tagged_contribution t Hframe), (IH Hframes). reflexivity.
Qed.

(** X5: the tagger loses no text and keeps its order under any order of
    tokens, response ends, release signals and other frames, as long as no
    response start comes and every token holds no tag symbol, or exactly one
    tag symbol and no line feed: in every state the tagger can reach, and
    for every such list of frames, the text pushed followed by the text left
    in the queue is the text that was in the queue followed by the text of
    the tokens with the tags removed, in their order. *)
Theorem text_is_kept_in_order_without_response_start :
  forall before frames,
    forallb (fun p => negb (is_response_start p)) frames = true ->
    well_tagged_frames frames = true ->
    let self := exec_state (process_frames before) init in
    (emitted_text (exec_out (process_frames frames) self)
     ++ pending (segments (exec_state (process_frames frames) self)))%string
    = (pending (segments self) ++ text_without_tags frames)%string.
Proof.
  intros before frames Hall Hwell self.
  rewrite <- (well_tagged_text_contributions frames Hwell).
  apply (conserves_process_frames frames Hall self).
  apply process_frames_queue_ok. exact I.
Qed.

Lemma text_is_kept_in_order_without_response_start_witness :
  let before :=
    [downstream LLMFullResponseStartFrame;
     downstream (LLMTextFrame "AA one"); downstream (LLMTextFrame "BB two")] in
  let frames :=
    [upstream NextCharacterSequenceFrame;
     downstream (LLMTextFrame " three");
     downstream LLMFullResponseEndFrame;
     downstream (LLMTextFrame "AA four");
     downstream (SystemFrame 0)] in
  let self := exec_state (process_frames before) init in
  forallb (fun p => negb (is_response_start p)) frames = true
  /\ well_tagged_frames frames = true
  /\ (emitted_text (exec_out (process_frames frames) self)
      ++ pending (segments (exec_state (process_frames frames) self)))%string
     = " two three four".
Proof.
  cbv zeta. split; [reflexivity |]. split; [reflexivity |].
  rewrite (text_is_kept_in_order_without_response_start
             [downstream LLMFullResponseStartFrame;
              downstream (LLMTextFrame "AA one");
              downstream (LLMTextFrame "BB two")]
             [upstream NextCharacterSequenceFrame;
              downstream (LLMTextFrame " three");
              downstream LLMFullResponseEndFrame;
              downstream (LLMTextFrame "AA four");
              downstream (SystemFrame 0)]).
  - reflexivity.
  - reflexivity.
  - reflexivity.
Defined.

(** ** The shape of the stream of segments *)

Lemma brackets_app b out1 out2 :
  brackets b (out1 ++ out2) = brackets (brackets b out1) out2.
Proof. apply fold_left_app. Qed.

Lemma expected_bracket_flags l1 l2 :
  map buffered l1 = map buffered l2 ->
  expected_bracket l1 = expected_bracket l2.
Proof.
  destruct l1 as [| a l1], l2 as [| b l2]; try discriminate; [reflexivity |].
  cbn [map expected_bracket]. intros [= -> _]. reflexivity.
Qed.

Lemma only_head_live_last_live s rest :
  only_head_live (s :: rest) ->
  buffered (last (s :: rest) s) = false -> rest = [].
Proof.
  unfold only_head_live; cbn [tl]. intros Hrest Hlast.
  destruct rest as [| b rest]; [reflexivity |].
  change (buffered (last (b :: rest) s) = false) in Hlast.
  rewrite (last_held (b :: rest) s) in Hlast by (discriminate || exact Hrest).
  discriminate Hlast.
Qed.

Lemma keeps_brackets_pass : keeps_brackets pass.
Proof. intros self Hinv. split; [exact Hinv | reflexivity]. Qed.

Lemma keeps_brackets_seq m1 m2 :
  keeps_brackets m1 -> keeps_brackets m2 -> keeps_brackets (m1 ;; m2).
Proof.
  intros H1 H2 self Hinv.
  destruct (H1 self Hinv) as [Hinv1 Hb1].
  destruct (H2 _ Hinv1) as [Hinv2 Hb2].
  rewrite exec_state_seq, exec_out_seq, brackets_app, Hb1, Hb2.
  split; [exact Hinv2 | reflexivity].
Qed.

Lemma keeps_brackets_push_text t : keeps_brackets (push_text t).
Proof.
  intros self Hinv. split; [apply push_text_only_head_live, Hinv |].
  unfold exec_out, exec_state. rewrite push_text_eq.
  destruct (segments self) as [| s rest] eqn:Hsegs; [reflexivity |].
  destruct (buffered (last (s :: rest) s)) eqn:Hlast; cbn [fst snd segments].
  - cbn [brackets fold_left]. symmetry.
    apply expected_bracket_flags, map_buffered_append_to_last.
  - rewrite Hsegs.
    pose proof (only_head_live_last_live s rest Hinv Hlast) as ->.
    cbn [last] in Hlast. cbn. rewrite Hlast. reflexivity.
Qed.

Lemma keeps_brackets_optional_push_text t :
  keeps_brackets (if truthy t then push_text t else pass).
Proof.
  destruct (truthy t); [apply keeps_brackets_push_text | apply keeps_brackets_pass].
Qed.

Lemma keeps_brackets_on_character c : keeps_brackets (on_character c).
Proof.
  intros self Hinv. split; [apply on_character_only_head_live, Hinv |].
  unfold exec_out, exec_state. rewrite on_character_eq.
  destruct (truthy c && negb (String.eqb c (current_character self)));
    cbn [fst snd segments]; [| reflexivity].
  destruct (segments self) as [| s rest]; reflexivity.
Qed.

Lemma keeps_brackets_flush : keeps_brackets flush_character_segment.
Proof.
  intros self Hinv. split; [apply flush_only_head_live, Hinv |].
  unfold exec_out, exec_state. rewrite flush_character_segment_eq.
  destruct (segments self) as [| s rest] eqn:Hsegs; cbn [fst snd segments].
  - rewrite Hsegs. reflexivity.
  - assert (Hrest : expected_bracket rest = Outside).
    { unfold only_head_live in Hinv; cbn [tl] in Hinv.
      destruct Hinv as [| b rest Hb _]; [reflexivity |].
      cbn. rewrite Hb. reflexivity. }
    rewrite Hrest. cbn [expected_bracket].
    destruct (buffered s); reflexivity.
Qed.

Lemma keeps_brackets_push_frame frame direction :
  (forall b, bracket_step b (frame, direction) = b) ->
  keeps_brackets (push_frame frame direction).
Proof.
  intros Hstep self Hinv. split; [exact Hinv |].
  cbn. apply Hstep.
Qed.

Lemma keeps_brackets_process_frame frame direction :
  is_response_start (frame, direction) = false ->
  is_tag_frame (frame, direction) = false ->
  keeps_brackets (Tagger.process_frame frame direction).
Proof.
  intros Hstart Htag.
  destruct frame as [| | t | | k | c | | k];
    try discriminate Hstart; try discriminate Htag;
    unfold Tagger.process_frame; cbn [isinstance].
  - apply keeps_brackets_flush.
  - apply keeps_brackets_seq; [apply keeps_brackets_pass |].
    unfold process_text. destruct (re_match t) as [[[pre c] post] |].
    + apply keeps_brackets_seq; [apply keeps_brackets_optional_push_text |].
      apply keeps_brackets_seq;
        [apply keeps_brackets_on_character
        | apply keeps_brackets_optional_push_text].
    + apply keeps_brackets_push_text.
  - apply keeps_brackets_seq; [apply keeps_brackets_pass |].
    apply keeps_brackets_push_frame. reflexivity.
  - apply keeps_brackets_seq; [apply keeps_brackets_pass |].
    apply keeps_brackets_push_frame. reflexivity.
  - apply keeps_brackets_seq; [apply keeps_brackets_flush |].
    apply keeps_brackets_push_frame. reflexivity.
  - apply keeps_brackets_seq; [apply keeps_brackets_pass |].
    apply keeps_brackets_push_frame. reflexivity.
Qed.

Lemma keeps_brackets_process_frames frames :
  forallb (fun p => negb (is_response_start p) && negb (is_tag_frame p))
    frames = true ->
  keeps_brackets (process_frames frames).
Proof.
  induction frames as [| [frame direction] frames IH]; intros Hall;
    [apply keeps_brackets_pass |].
  cbn [forallb] in Hall. apply andb_true_iff in Hall as [Hp Hframes].
  apply andb_true_iff in Hp as [Hstart Htag].
  apply negb_true_iff in Hstart, Htag.
  cbn [process_frames]. apply keeps_brackets_seq.
  - apply keeps_brackets_process_frame; assumption.
  - apply IH, Hframes.
Qed.

Lemma expected_bracket_sound l :
  expected_bracket l = Outside \/ expected_bracket l = Inside.
Proof.
  destruct l as [| s rest]; [left; reflexivity |].
  cbn. destruct (buffered s); [left | right]; reflexivity.
Qed.

Lemma brackets_after_response_start self frames :
  forallb (fun p => negb (is_response_start p) && negb (is_tag_frame p))
    frames = true ->
  brackets Outside
    (exec_out
       (process_frames (downstream LLMFullResponseStartFrame :: frames)) self)
  = expected_bracket
      (segments
         (exec_state
            (process_frames (downstream LLMFullResponseStartFrame :: frames))
            self)).
Proof.
  intros Hall.
  set (self0 := {| current_character := current_character self;
                   segments := [] |}).
  assert (Hstart : Tagger.process_frame LLMFullResponseStartFrame DOWNSTREAM
                     self = (tt, self0, [])) by reflexivity.
  cbn [process_frames downstream].
  rewrite exec_state_seq, exec_out_seq.
  rewrite (exec_out_eq _ _ _ _ Hstart), (exec_state_eq _ _ _ _ Hstart).
  cbn [app].
  destruct (keeps_brackets_process_frames frames Hall self0) as [_ Hb];
    [constructor |].
  exact Hb.
Qed.

(** X6: after a response start, whatever tokens, response ends, release
    signals and other frames follow in whatever order (no further response
    start, no tag frame from upstream), the frames the tagger pushes always
    form whole segments: each one a tag frame, a response start, text
    frames and a response end, one segment after the other and never one
    inside another.  The output stands inside a segment exactly when the
    head of the queue is live, and outside otherwise. *)
Theorem tagger_output_is_a_stream_of_segments :
  forall self frames,
    forallb (fun p => negb (is_response_start p) && negb (is_tag_frame p))
      frames = true ->
    let run := process_frames (downstream LLMFullResponseStartFrame :: frames) in
    brackets Outside (exec_out run self)
    = expected_bracket (segments (exec_state run self))
    /\ brackets Outside (exec_out run self) <> Broken
    /\ brackets Outside (exec_out run self) <> AfterTag.
Proof.
  intros self frames Hall run. subst run.
  rewrite (brackets_after_response_start self frames Hall).
  split; [reflexivity |].
  destruct (expected_bracket_sound
              (segments
                 (exec_state
                    (process_frames
                       (downstream LLMFullResponseStartFrame :: frames))
                    self)))
    as [-> | ->]; split; discriminate.
Qed.

Lemma tagger_output_is_a_stream_of_segments_witness :
  let frames :=
    [downstream (LLMTextFrame "AA one"); downstream (LLMTextFrame "BB two");
     upstream NextCharacterSequenceFrame; downstream (SystemFrame 3);
     downstream (LLMTextFrame " three"); downstream LLMFullResponseEndFrame] in
  forallb (fun p => negb (is_response_start p) && negb (is_tag_frame p))
    frames = true
  /\ brackets Outside
       (exec_out
          (process_frames (downstream LLMFullResponseStartFrame :: frames))
          init)
     <> Broken.
Proof.
  cbv zeta. split; [reflexivity |].
  apply (tagger_output_is_a_stream_of_segments init
           [downstream (LLMTextFrame "AA one");
            downstream (LLMTextFrame "BB two");
            upstream NextCharacterSequenceFrame; downstream (SystemFrame 3);
            downstream (LLMTextFrame " three");
            downstream LLMFullResponseEndFrame]).
  reflexivity.
Defined.

(** ** A response and its release signals *)

Lemma response_ends_app out1 out2 :
  response_ends (out1 ++ out2) = (response_ends out1 + response_ends out2)%nat.
Proof. unfold response_ends. rewrite filter_app. apply length_app. Qed.

Lemma push_text_no_end t self :
  response_ends (exec_out (push_text t) self) = 0%nat.
Proof.
  unfold exec_out. rewrite push_text_eq.
  destruct (segments self) as [| s rest]; [reflexivity |].
  destruct (buffered (last (s :: rest) s)); reflexivity.
Qed.

Lemma on_character_no_end c self :
  response_ends (exec_out (on_character c) self) = 0%nat.
Proof.
  unfold exec_out. rewrite on_character_eq.
  destruct (truthy c && negb (String.eqb c (current_character self)));
    [| reflexivity].
  destruct (0 <? length (segments self))%nat; reflexivity.
Qed.

Lemma optional_push_text_no_end t self :
  response_ends (exec_out (if truthy t then push_text t else pass) self)
  = 0%nat.
Proof. destruct (truthy t); [apply push_text_no_end | reflexivity]. Qed.

Lemma process_text_no_end t self :
  response_ends (exec_out (process_text t) self) = 0%nat.
Proof.
  unfold process_text. destruct (re_match t) as [[[pre c] post] |].
  - rewrite !exec_out_seq, !response_ends_app.
    rewrite !optional_push_text_no_end, on_character_no_end. reflexivity.
  - apply push_text_no_end.
Qed.

Lemma token_frames_no_end tokens self :
  response_ends (exec_out (process_frames (token_frames tokens)) self) = 0%nat.
Proof.
  revert self. induction tokens as [| t tokens IH]; intros self;
    [reflexivity |].
  cbn [token_frames map process_frames downstream].
  rewrite exec_out_seq, response_ends_app. fold (token_frames tokens).
  rewrite IH. unfold exec_out at 1. rewrite process_frame_text.
  fold (exec_out (process_text t) self). rewrite process_text_no_end.
  reflexivity.
Qed.

Lemma flush_ends self :
  response_ends (exec_out flush_character_segment self)
  = Nat.min 1 (length (segments self)).
Proof.
  unfold exec_out. rewrite flush_character_segment_eq.
  destruct (segments self) as [| s rest]; [reflexivity |].
  destruct (buffered s); reflexivity.
Qed.

Lemma releases_ends n self :
  response_ends
    (exec_out
       (process_frames (repeat (upstream NextCharacterSequenceFrame) n)) self)
  = Nat.min n (length (segments self)).
Proof.
  revert self. induction n as [| n IH]; intros self; [reflexivity |].
  cbn [repeat process_frames upstream].
  rewrite exec_out_seq, response_ends_app, IH, release_segments.
  unfold Tagger.process_frame at 1; cbn [isinstance].
  rewrite exec_out_seq, response_ends_app, flush_ends.
  cbn [exec_out push_frame snd response_ends filter is_release is_response_end
       isinstance fst length].
  destruct (segments self) as [| s rest]; cbn [length tl]; lia.
Qed.

Lemma closing_ends n self :
  response_ends
    (exec_out
       (process_frames
          (downstream LLMFullResponseEndFrame
           :: repeat (upstream NextCharacterSequenceFrame) n)) self)
  = Nat.min (S n) (length (segments self)).
Proof.
  cbn [process_frames downstream].
  rewrite exec_out_seq, response_ends_app, releases_ends.
  change (Tagger.process_frame LLMFullResponseEndFrame DOWNSTREAM)
    with flush_character_segment.
  rewrite flush_ends, flush_segments.
  destruct (segments self) as [| s rest]; cbn [length tl]; lia.
Qed.

Lemma response_frames_allowed tokens releases :
  forallb (fun p => negb (is_response_start p) && negb (is_tag_frame p))
    (token_frames tokens
     ++ downstream LLMFullResponseEndFrame
     :: repeat (upstream NextCharacterSequenceFrame) releases) = true.
Proof.
  rewrite forallb_app. apply andb_true_iff. split.
  - induction tokens as [| t tokens IH]; [reflexivity | exact IH].
  - cbn [forallb]. induction releases as [| n IH]; [reflexivity | exact IH].
Qed.

(** X7: a response whose release signals are at least as many as its held
    segments is sent out whole: at the end the queue is empty, the output is
    outside any segment (every segment opened has been closed), and the
    tagger has pushed exactly one response end per segment of the response,
    none of them before the response end came in. *)
Theorem complete_response_closes_every_segment :
  forall self tokens releases,
    let queued :=
      segments
        (exec_state
           (process_frames
              (downstream LLMFullResponseStartFrame :: token_frames tokens))
           self) in
    (length queued <= S releases)%nat ->
    let run := process_frames (response tokens releases) in
    segments (exec_state run self) = []
    /\ brackets Outside (exec_out run self) = Outside
    /\ response_ends (exec_out run self) = length queued
    /\ response_ends
         (exec_out
            (process_frames
               (downstream LLMFullResponseStartFrame :: token_frames tokens))
            self) = 0%nat.
Proof.
  intros self tokens releases queued Hlen run. subst queued run.
  unfold response.
  set (self0 := {| current_character := current_character self;
                   segments := [] |}).
  assert (Hstart : Tagger.process_frame LLMFullResponseStartFrame DOWNSTREAM
                     self = (tt, self0, [])) by reflexivity.
  assert (Hempty :
            segments
              (exec_state
                 (process_frames
                    (downstream LLMFullResponseStartFrame
                     :: token_frames tokens
                        ++ downstream LLMFullResponseEndFrame
                        :: repeat (upstream NextCharacterSequenceFrame)
                             releases)) self) = []).
  { change (downstream LLMFullResponseStartFrame
            :: token_frames tokens
               ++ downstream LLMFullResponseEndFrame
               :: repeat (upstream NextCharacterSequenceFrame) releases)
      with ((downstream LLMFullResponseStartFrame :: token_frames tokens)
            ++ downstream LLMFullResponseEndFrame
            :: repeat (upstream NextCharacterSequenceFrame) releases).
    rewrite exec_state_process_frames_app.
    apply closing_empties_queue, Hlen. }
  split; [exact Hempty |].
  split.
  - rewrite (brackets_after_response_start self _
               (response_frames_allowed tokens releases)).
    rewrite Hempty. reflexivity.
  - cbn [process_frames downstream] in *.
    rewrite exec_state_seq, (exec_state_eq _ _ _ _ Hstart) in Hlen.
    rewrite !exec_out_seq, (exec_out_eq _ _ _ _ Hstart),
      (exec_state_eq _ _ _ _ Hstart).
    rewrite !exec_state_seq, (exec_state_eq _ _ _ _ Hstart).
    cbn [app]. split; [| apply token_frames_no_end].
    rewrite exec_out_process_frames_app, response_ends_app.
    rewrite token_frames_no_end, closing_ends. cbn [Nat.add].
    apply Nat.min_r, Hlen.
Qed.

Lemma complete_response_closes_every_segment_witness :
  let tokens := ["AA"; " one "; "BB"; " two "; "AA"; " three"] in
  response_ends (exec_out (process_frames (response tokens 2)) init) = 3%nat.
Proof.
  cbv zeta.
  apply (complete_response_closes_every_segment init
           ["AA"; " one "; "BB"; " two "; "AA"; " three"] 2).
  vm_compute. lia.
Defined.

(** ** Termination and system frames *)

Lemma push_text_no_lifecycle t self :
  filter lifecycle (exec_out (push_text t) self) = [].
Proof.
  unfold exec_out. rewrite push_text_eq.
  destruct (segments self) as [| s rest]; [reflexivity |].
  destruct (buffered (last (s :: rest) s)); reflexivity.
Qed.

Lemma on_character_no_lifecycle c self :
  filter lifecycle (exec_out (on_character c) self) = [].
Proof.
  unfold exec_out. rewrite on_character_eq.
  destruct (truthy c && negb (String.eqb c (current_character self)));
    [| reflexivity].
  destruct (0 <? length (segments self))%nat; reflexivity.
Qed.

Lemma flush_no_lifecycle self :
  filter lifecycle (exec_out flush_character_segment self) = [].
Proof.
  unfold exec_out. rewrite flush_character_segment_eq.
  destruct (segments self) as [| s rest]; [reflexivity |].
  destruct (buffered s); reflexivity.
Qed.

Lemma process_text_no_lifecycle t self :
  filter lifecycle (exec_out (process_text t) self) = [].
Proof.
  unfold process_text. destruct (re_match t) as [[[pre c] post] |].
  - rewrite !exec_out_seq, !filter_app, on_character_no_lifecycle.
    destruct (truthy pre), (truthy post);
      rewrite ?push_text_no_lifecycle; reflexivity.
  - apply push_text_no_lifecycle.
Qed.

Lemma tagger_process_frame_lifecycle frame direction self :
  filter lifecycle (exec_out (Tagger.process_frame frame direction) self)
  = filter lifecycle [(frame, direction)].
Proof.
  destruct frame as [| | t | | k | c | | k];
    unfold Tagger.process_frame; cbn [isinstance];
    rewrite ?exec_out_seq, ?filter_app; try reflexivity.
  - apply flush_no_lifecycle.
  - cbn [exec_out pass ret snd app]. apply process_text_no_lifecycle.
  - rewrite flush_no_lifecycle. reflexivity.
Qed.

Lemma tagger_lifecycle_filter frames self :
  filter lifecycle (exec_out (process_frames frames) self)
  = filter lifecycle frames.
Proof.
  revert self. induction frames as [| [frame direction] frames IH];
    intros self; [reflexivity |].
  cbn [process_frames]. rewrite exec_out_seq, filter_app, IH.
  rewrite tagger_process_frame_lifecycle.
  change ((frame, direction) :: frames) with ([(frame, direction)] ++ frames).
  rewrite filter_app. reflexivity.
Qed.

(** X8: termination and system frames go through the tagger untouched: a
    frame that is an [EndFrame] or a [SystemFrame] is pushed on at once, in
    its direction, and changes nothing in the tagger, whatever is held in
    the queue; over any list of frames, the termination and system frames
    that come out are those that went in, in the same order and directions,
    none added and none held back. *)
Theorem tagger_passes_end_and_system_frames :
  forall frames self,
    filter lifecycle (exec_out (process_frames frames) self)
    = filter lifecycle frames
    /\ (forall frame direction,
          lifecycle (frame, direction) = true ->
          Tagger.process_frame frame direction self
          = (tt, self, [(frame, direction)])).
Proof.
  intros frames self. split; [apply tagger_lifecycle_filter |].
  intros frame direction Hlife.
  destruct frame as [| | t | | k | c | | k]; try discriminate Hlife;
    reflexivity.
Qed.

Lemma tagger_passes_end_and_system_frames_witness :
  lifecycle (downstream EndFrame) = true
  /\ Tagger.process_frame EndFrame DOWNSTREAM
       {| current_character := "BB";
          segments := [mkSegment "AA" "" false; mkSegment "BB" " held" true] |}
     = (tt,
        {| current_character := "BB";
           segments := [mkSegment "AA" "" false; mkSegment "BB" " held" true] |},
        [downstream EndFrame]).
Proof.
  split; [reflexivity |].
  apply (proj2 (tagger_passes_end_and_system_frames []
                  {| current_character := "BB";
                     segments := [mkSegment "AA" "" false;
                                  mkSegment "BB" " held" true] |})).
  reflexivity.
Defined.

Lemma gate_process_frame_character frame direction g :
  Gate.character (exec_state (Gate.process_frame frame direction) g)
  = Gate.character g.
Proof.
  unfold Gate.process_frame, Gate._should_passthrough_frame, Gate.set_open.
  destruct g as [gc go].
  destruct frame as [| | t | | k | c | | k]; proc_unfold; simpl;
    try (destruct go; reflexivity).
  destruct (String.eqb c gc); reflexivity.
Qed.

Lemma gate_process_frames_character frames g :
  Gate.character (exec_state (Gate.process_frames frames) g)
  = Gate.character g.
Proof.
  revert g. induction frames as [| [frame direction] frames IH]; intros g;
    [reflexivity |].
  cbn [Gate.process_frames]. rewrite exec_state_seq, IH.
  apply gate_process_frame_character.
Qed.

Lemma gate_lifecycle_filter frames g :
  filter lifecycle (exec_out (Gate.process_frames frames) g)
  = filter lifecycle frames.
Proof.
  revert g. induction frames as [| [frame direction] frames IH]; intros g;
    [reflexivity |].
  cbn [Gate.process_frames]. rewrite exec_out_seq, filter_app, IH.
  rewrite gate_process_frame_out.
  change ((frame, direction) :: frames) with ([(frame, direction)] ++ frames).
  rewrite filter_app. f_equal.
  destruct frame as [| | t | | k | c | | k]; cbn;
    try (destruct (Gate.open g); reflexivity).
  destruct (String.eqb c (Gate.character g)); reflexivity.
Qed.

(** X9: a gate never holds back a termination or system frame: over any
    list of frames and from any state of the gate, open or closed, the
    [EndFrame]s and [SystemFrame]s it pushes are those it received, in the
    same order and directions. *)
Theorem gate_passes_end_and_system_frames :
  forall frames g,
    filter lifecycle (exec_out (Gate.process_frames frames) g)
    = filter lifecycle frames.
Proof. exact gate_lifecycle_filter. Qed.

Lemma filter_swap {A : Type} (p q : A -> bool) (l : list A) :
  filter p (filter q l) = filter q (filter p l).
Proof.
  induction l as [| a l IH]; [reflexivity |].
  cbn [filter]. destruct (p a) eqn:Hp, (q a) eqn:Hq; cbn [filter];
    rewrite ?Hp, ?Hq, IH; reflexivity.
Qed.

(** X10: the tagger followed by a gate, as the pipeline puts them: the
    termination and system frames that enter the tagger travelling
    downstream come out of the gate behind it, all of them and in order,
    whatever the tagger holds and whether the gate is open or closed. *)
Theorem end_and_system_frames_cross_tagger_and_gate :
  forall frames self g,
    filter lifecycle
      (exec_out
         (Gate.process_frames
            (downstream_part (exec_out (process_frames frames) self))) g)
    = filter lifecycle (downstream_part frames).
Proof.
  intros frames self g. rewrite gate_lifecycle_filter.
  unfold downstream_part.
  rewrite filter_swap, tagger_lifecycle_filter. apply filter_swap.
Qed.

(** ** Gates on a stream *)

Lemma gate_open_after_stream frames g :
  Gate.open (exec_state (Gate.process_frames frames) g)
  = match last_tag frames with
    | Some c => String.eqb c (Gate.character g)
    | None => Gate.open g
    end.
Proof.
  revert g. induction frames as [| [frame direction] frames IH]; intros g;
    [reflexivity |].
  cbn [Gate.process_frames last_tag]. rewrite exec_state_seq, IH.
  rewrite gate_process_frame_character.
  destruct (last_tag frames) as [c |]; [reflexivity |].
  rewrite gate_process_frame_open.
  destruct frame; reflexivity.
Qed.

(** X11: after any list of frames, a gate is open exactly when the last tag
    frame of the list names its character; the frames before that tag, the
    frames after it and the earlier state of the gate play no part.  A list
    without a tag frame leaves the gate as it was. *)
Theorem gate_follows_the_last_tag :
  forall frames g,
    Gate.open (exec_state (Gate.process_frames frames) g)
    = match last_tag frames with
      | Some c => String.eqb c (Gate.character g)
      | None => Gate.open g
      end.
Proof. exact gate_open_after_stream. Qed.

(** X12: two gates for different characters that are fed the same frames,
    and are not both open to begin with, are never both open; and a frame
    that both of them forward is an [EndFrame] or a [SystemFrame]: every
    other frame goes down one branch at most. *)
Theorem gates_of_two_characters_never_both_forward :
  forall g1 g2 frames frame direction,
    Gate.character g1 <> Gate.character g2 ->
    Gate.open g1 && Gate.open g2 = false ->
    let g1' := exec_state (Gate.process_frames frames) g1 in
    let g2' := exec_state (Gate.process_frames frames) g2 in
    Gate.open g1' && Gate.open g2' = false
    /\ (exec_out (Gate.process_frame frame direction) g1'
          = [(frame, direction)] ->
        exec_out (Gate.process_frame frame direction) g2'
          = [(frame, direction)] ->
        lifecycle (frame, direction) = true).
Proof.
  intros g1 g2 frames frame direction Hdiff Hnot g1' g2'.
  assert (Hchar1 : Gate.character g1' = Gate.character g1)
    by apply gate_process_frames_character.
  assert (Hchar2 : Gate.character g2' = Gate.character g2)
    by apply gate_process_frames_character.
  assert (Hopen : Gate.open g1' && Gate.open g2' = false).
  { subst g1' g2'. rewrite !gate_open_after_stream.
    destruct (last_tag frames) as [c |]; [| exact Hnot].
    destruct (String.eqb_spec c (Gate.character g1)) as [H1 | H1];
      destruct (String.eqb_spec c (Gate.character g2)) as [H2 | H2];
      try reflexivity.
    congruence. }
  split; [exact Hopen |].
  rewrite !gate_process_frame_out, Hchar1, Hchar2.
  unfold lifecycle; cbn [fst].
  destruct frame as [| | t | | k | c | | k];
    try (destruct (Gate.open g1'), (Gate.open g2');
         cbn; intros; (reflexivity || discriminate)).
  destruct (String.eqb_spec c (Gate.character g1)) as [H1 | H1];
    destruct (String.eqb_spec c (Gate.character g2)) as [H2 | H2];
    intros; try discriminate.
  congruence.
Qed.

Lemma gates_of_two_characters_never_both_forward_witness :
  let frames :=
    [downstream (CharacterTagFrame "AA"); downstream LLMFullResponseStartFrame;
     downstream (CharacterTagFrame "BB")] in
  Gate.character (Gate.init "AA") <> Gate.character (Gate.init "BB")
  /\ Gate.open
       (exec_state (Gate.process_frames frames) (Gate.init "AA"))
     && Gate.open
          (exec_state (Gate.process_frames frames) (Gate.init "BB"))
     = false.
Proof.
  cbv zeta.
  assert (Hdiff : Gate.character (Gate.init "AA")
                  <> Gate.character (Gate.init "BB")) by discriminate.
  split; [exact Hdiff |].
  apply (gates_of_two_characters_never_both_forward
           (Gate.init "AA") (Gate.init "BB")
           [downstream (CharacterTagFrame "AA");
            downstream LLMFullResponseStartFrame;
            downstream (CharacterTagFrame "BB")]
           EndFrame DOWNSTREAM Hdiff).
  reflexivity.
Defined.

(** ** The segments a gate lets through *)

Lemma collect_segments_from_app acc out1 out2 :
  collect_segments_from acc (out1 ++ out2)
  = collect_segments_from (collect_segments_from acc out1) out2.
Proof.
  revert acc. induction out1 as [| [frame direction] out1 IH]; intros acc;
    [reflexivity |].
  destruct frame; cbn [app collect_segments_from]; apply IH.
Qed.

Lemma last_character_add_text acc t :
  last_character (add_text acc t) = last_character acc.
Proof.
  induction acc as [| [c s] acc IH]; [reflexivity |].
  destruct acc as [| b acc]; [reflexivity |].
  change (add_text ((c, s) :: b :: acc) t)
    with ((c, s) :: add_text (b :: acc) t).
  destruct (add_text (b :: acc) t) as [| b' acc'] eqn:Hadd.
  - destruct b as [cb sb]. destruct acc; discriminate Hadd.
  - change (last_character (b' :: acc') = last_character (b :: acc)).
    exact IH.
Qed.

Lemma last_character_snoc acc c s : last_character (acc ++ [(c, s)]) = Some c.
Proof.
  induction acc as [| [c' s'] acc IH]; [reflexivity |].
  cbn [app]. destruct (acc ++ [(c, s)]) as [| b l] eqn:Happ.
  - destruct acc; discriminate Happ.
  - exact IH.
Qed.

Lemma last_character_none acc : last_character acc = None -> acc = [].
Proof.
  induction acc as [| [c s] acc IH]; [reflexivity |].
  destruct acc as [| b acc]; [discriminate |].
  intros H. specialize (IH H). discriminate IH.
Qed.

Lemma filter_head {A : Type} (p : A -> bool) (a : A) (l : list A) :
  filter p (a :: l) = if p a then a :: filter p l else filter p l.
Proof. reflexivity. Qed.

Lemma add_text_filter_hit gc acc c t :
  last_character acc = Some c -> String.eqb c gc = true ->
  filter (segment_of gc) (add_text acc t)
  = add_text (filter (segment_of gc) acc) t.
Proof.
  intros Hlast Hc. induction acc as [| [c' s] acc IH]; [reflexivity |].
  destruct acc as [| b acc].
  - cbn in Hlast. injection Hlast as ->.
    cbn. unfold segment_of; cbn [fst]. rewrite Hc. reflexivity.
  - change (add_text ((c', s) :: b :: acc) t)
      with ((c', s) :: add_text (b :: acc) t).
    change (last_character (b :: acc) = Some c) in Hlast.
    specialize (IH Hlast).
    rewrite !(filter_head _ (c', s)), IH.
    destruct (segment_of gc (c', s)); [| reflexivity].
    destruct (filter (segment_of gc) (b :: acc)) as [| b' l] eqn:Hfilter;
      [| reflexivity].
    exfalso. clear IH.
    assert (Hin : exists s0, In (c, s0) (b :: acc)).
    { clear Hfilter. revert Hlast. generalize (b :: acc) as l.
      induction l as [| [c0 s0] l IHl]; [discriminate |].
      destruct l as [| b0 l].
      - cbn. intros [= ->]. exists s0. left. reflexivity.
      - intros H. destruct (IHl H) as [s1 Hs1]. exists s1. right. exact Hs1. }
    destruct Hin as [s0 Hin].
    assert (Hmem : In (c, s0) (filter (segment_of gc) (b :: acc)))
      by (apply filter_In; split; [exact Hin | exact Hc]).
    rewrite Hfilter in Hmem. exact Hmem.
Qed.

Lemma add_text_filter_miss gc acc c t :
  last_character acc = Some c -> String.eqb c gc = false ->
  filter (segment_of gc) (add_text acc t) = filter (segment_of gc) acc.
Proof.
  intros Hlast Hc. induction acc as [| [c' s] acc IH]; [reflexivity |].
  destruct acc as [| b acc].
  - cbn in Hlast. injection Hlast as ->.
    cbn. unfold segment_of; cbn [fst]. rewrite Hc. reflexivity.
  - change (add_text ((c', s) :: b :: acc) t)
      with ((c', s) :: add_text (b :: acc) t).
    change (last_character (b :: acc) = Some c) in Hlast.
    rewrite !(filter_head _ (c', s)), (IH Hlast). reflexivity.
Qed.

Lemma gate_segments_from frames g acc :
  match last_character acc with
  | Some c => Gate.open g = String.eqb c (Gate.character g)
  | None => True
  end ->
  collect_segments_from (filter (segment_of (Gate.character g)) acc)
    (exec_out (Gate.process_frames frames) g)
  = filter (segment_of (Gate.character g)) (collect_segments_from acc frames).
Proof.
  revert g acc. induction frames as [| [frame direction] frames IH];
    intros g acc Hinv; [reflexivity |].
  cbn [Gate.process_frames]. rewrite exec_out_seq, collect_segments_from_app.
  rewrite gate_process_frame_out.
  pose proof (gate_process_frame_character frame direction g) as Hchar.
  pose proof (gate_process_frame_open g frame direction) as Hopen.
  set (g' := exec_state (Gate.process_frame frame direction) g) in *.
  destruct frame as [| | t | | k | c | | k];
    cbn [collect_segments_from];
    try (rewrite <- Hchar; rewrite <- (IH g' acc)
           by (rewrite Hopen, Hchar; exact Hinv);
         destruct (Gate.open g); reflexivity).
  - (* a text frame *)
    rewrite <- Hchar.
    rewrite <- (IH g' (add_text acc t))
      by (rewrite last_character_add_text, Hopen, Hchar; exact Hinv).
    rewrite Hchar. f_equal.
    destruct (last_character acc) as [c |] eqn:Hlast.
    + cbn [end_or_system isinstance orb]. rewrite orb_false_r, Hinv.
      destruct (String.eqb c (Gate.character g)) eqn:Hc.
      * cbn [collect_segments_from]. symmetry.
        eapply add_text_filter_hit; eassumption.
      * cbn [collect_segments_from]. symmetry.
        eapply add_text_filter_miss; eassumption.
    + rewrite (last_character_none acc Hlast).
      destruct (Gate.open g || end_or_system (LLMTextFrame t)); reflexivity.
  - (* a tag frame *)
    rewrite <- Hchar.
    rewrite <- (IH g' (acc ++ [(c, EmptyString)]))
      by (rewrite last_character_snoc, Hopen, Hchar; reflexivity).
    rewrite Hchar. f_equal. rewrite filter_app. cbn [filter].
    unfold segment_of at 3; cbn [fst].
    destruct (String.eqb c (Gate.character g)); cbn [collect_segments_from].
    + reflexivity.
    + now rewrite app_nil_r.
Qed.

(** X13: a gate directs the segments of its character to its branch: for
    any list of frames and any state of the gate, the segments found in what
    the gate pushes are exactly the segments of the input that are tagged
    with the gate's character, in order and each with all of its text. *)
Theorem gate_lets_through_the_segments_of_its_character :
  forall frames g,
    collect_segments (exec_out (Gate.process_frames frames) g)
    = filter (segment_of (Gate.character g)) (collect_segments frames).
Proof.
  intros frames g. unfold collect_segments.
  apply (gate_segments_from frames g []). exact I.
Qed.

(** ** The tagger and the two gates of the pipeline *)

Lemma speaker_tags_app out1 out2 :
  speaker_tags (out1 ++ out2) = speaker_tags out1 && speaker_tags out2.
Proof. apply forallb_app. Qed.

Lemma keeps_speakers_pass : keeps_speakers pass.
Proof. intros self Hq. split; [exact Hq | reflexivity]. Qed.

Lemma keeps_speakers_seq m1 m2 :
  keeps_speakers m1 -> keeps_speakers m2 -> keeps_speakers (m1 ;; m2).
Proof.
  intros H1 H2 self Hq.
  destruct (H1 self Hq) as [Hq1 Ht1].
  destruct (H2 _ Hq1) as [Hq2 Ht2].
  rewrite exec_state_seq, exec_out_seq, speaker_tags_app, Ht1, Ht2.
  split; [exact Hq2 | reflexivity].
Qed.

Lemma speaker_queue_append_to_last l t :
  speaker_queue (append_to_last l t) = speaker_queue l.
Proof.
  induction l as [| a l IH]; [reflexivity |].
  destruct l as [| b l]; [reflexivity |].
  change (append_to_last (a :: b :: l) t)
    with (a :: append_to_last (b :: l) t).
  unfold speaker_queue in *. cbn [forallb] in *. rewrite IH. reflexivity.
Qed.

Lemma keeps_speakers_push_text t : keeps_speakers (push_text t).
Proof.
  intros self Hq. unfold exec_out, exec_state. rewrite push_text_eq.
  destruct (segments self) as [| s rest] eqn:Hsegs; [split; reflexivity |].
  destruct (buffered (last (s :: rest) s)); cbn [fst snd segments].
  - split; [| reflexivity]. rewrite speaker_queue_append_to_last. exact Hq.
  - rewrite Hsegs. split; [exact Hq | reflexivity].
Qed.

Lemma keeps_speakers_optional_push_text t :
  keeps_speakers (if truthy t then push_text t else pass).
Proof.
  destruct (truthy t); [apply keeps_speakers_push_text | apply keeps_speakers_pass].
Qed.

Lemma keeps_speakers_on_character c :
  is_speaker c = true -> keeps_speakers (on_character c).
Proof.
  intros Hc self Hq. unfold exec_out, exec_state. rewrite on_character_eq.
  destruct (truthy c && negb (String.eqb c (current_character self)));
    cbn [fst snd segments]; [| split; [exact Hq | reflexivity]].
  split.
  - unfold speaker_queue in *. rewrite forallb_app, Hq. cbn. rewrite Hc.
    reflexivity.
  - destruct (0 <? length (segments self))%nat; [reflexivity |].
    cbn. rewrite Hc. reflexivity.
Qed.

Lemma keeps_speakers_flush : keeps_speakers flush_character_segment.
Proof.
  intros self Hq. unfold exec_out, exec_state.
  rewrite flush_character_segment_eq.
  destruct (segments self) as [| s rest] eqn:Hsegs; cbn [fst snd segments].
  - rewrite Hsegs. split; [exact Hq | reflexivity].
  - unfold speaker_queue in Hq. cbn [forallb] in Hq.
    apply andb_true_iff in Hq as [Hs Hrest]. split; [exact Hrest |].
    destruct (buffered s); [| reflexivity].
    cbn. rewrite Hs. reflexivity.
Qed.

Lemma re_match_speaker text pre c post :
  re_match text = Some (pre, c, post) -> is_speaker c = true.
Proof.
  intros Hmatch. destruct (re_match_tag _ _ _ _ Hmatch) as [-> | ->];
    reflexivity.
Qed.

Lemma keeps_speakers_process_frame frame direction :
  is_tag_frame (frame, direction) = false ->
  keeps_speakers (Tagger.process_frame frame direction).
Proof.
  intros Htag.
  destruct frame as [| | t | | k | c | | k]; try discriminate Htag;
    unfold Tagger.process_frame; cbn [isinstance].
  - intros self _. split; reflexivity.
  - apply keeps_speakers_flush.
  - apply keeps_speakers_seq; [apply keeps_speakers_pass |].
    unfold process_text.
    destruct (re_match t) as [[[pre c] post] |] eqn:Hmatch.
    + apply keeps_speakers_seq; [apply keeps_speakers_optional_push_text |].
      apply keeps_speakers_seq;
        [apply keeps_speakers_on_character; eapply re_match_speaker, Hmatch
        | apply keeps_speakers_optional_push_text].
    + apply keeps_speakers_push_text.
  - intros self Hq. split; [exact Hq | reflexivity].
  - intros self Hq. split; [exact Hq | reflexivity].
  - apply keeps_speakers_seq; [apply keeps_speakers_flush |].
    intros self Hq. split; [exact Hq | reflexivity].
  - intros self Hq. split; [exact Hq | reflexivity].
Qed.

Lemma keeps_speakers_process_frames frames :
  forallb (fun p => negb (is_tag_frame p)) frames = true ->
  keeps_speakers (process_frames frames).
Proof.
  induction frames as [| [frame direction] frames IH]; intros Hall;
    [apply keeps_speakers_pass |].
  cbn [forallb] in Hall. apply andb_true_iff in Hall as [Hp Hframes].
  apply negb_true_iff in Hp. cbn [process_frames].
  apply keeps_speakers_seq;
    [apply keeps_speakers_process_frame, Hp | apply IH, Hframes].
Qed.

Lemma add_text_speakers acc t :
  forallb (fun seg => is_speaker (fst seg)) (add_text acc t)
  = forallb (fun seg => is_speaker (fst seg)) acc.
Proof.
  induction acc as [| [c s] acc IH]; [reflexivity |].
  destruct acc as [| b acc]; [reflexivity |].
  change (add_text ((c, s) :: b :: acc) t)
    with ((c, s) :: add_text (b :: acc) t).
  cbn [forallb] in *. rewrite IH. reflexivity.
Qed.

Lemma collect_segments_speakers out acc :
  speaker_tags out = true ->
  forallb (fun seg => is_speaker (fst seg)) acc = true ->
  forallb (fun seg => is_speaker (fst seg)) (collect_segments_from acc out)
  = true.
Proof.
  revert acc. induction out as [| [frame direction] out IH];
    intros acc Htags Hacc; [exact Hacc |].
  unfold speaker_tags in Htags. cbn [forallb fst] in Htags.
  apply andb_true_iff in Htags as [Hframe Hout].
  destruct frame as [| | t | | k | c | | k]; cbn [collect_segments_from];
    try (apply IH; assumption).
  - apply IH; [exact Hout |]. rewrite add_text_speakers. exact Hacc.
  - apply IH; [exact Hout |]. rewrite forallb_app, Hacc. cbn.
    rewrite Hframe. reflexivity.
Qed.

Lemma speaker_tags_downstream_part out :
  speaker_tags out = true -> speaker_tags (downstream_part out) = true.
Proof.
  unfold speaker_tags, downstream_part. intros Hall.
  apply forallb_forall. intros p Hin. apply filter_In in Hin as [Hin _].
  exact (proj1 (forallb_forall _ _) Hall p Hin).
Qed.

Lemma speakers_split segs :
  forallb (fun seg => is_speaker (fst seg)) segs = true ->
  length segs
  = (length (filter (segment_of "AA") segs)
     + length (filter (segment_of "BB") segs))%nat.
Proof.
  induction segs as [| [c s] segs IH]; [reflexivity |].
  cbn [forallb fst]. intros Hall.
  apply andb_true_iff in Hall as [Hc Hsegs]. specialize (IH Hsegs).
  rewrite !(filter_head _ (c, s)). unfold segment_of in *; cbn [fst].
  unfold is_speaker in Hc.
  destruct (String.eqb_spec c "AA") as [HA | HA];
    destruct (String.eqb_spec c "BB") as [HB | HB];
    cbn [length]; try lia; try congruence.
Qed.

(** X14: the tagger and the two gates as the pipeline wires them.  After a
    response start, whatever tokens, response ends, release signals and
    other frames come (no tag frame from upstream), every segment the tagger
    sends downstream is tagged AA or BB; the gate of AA, fed that output,
    lets through exactly the segments of AA, the gate of BB exactly those of
    BB, each whole and in order; so every segment goes down one branch and
    one only. *)
Theorem every_segment_goes_down_one_branch :
  forall self frames,
    forallb (fun p => negb (is_tag_frame p)) frames = true ->
    let out :=
      downstream_part
        (exec_out
           (process_frames (downstream LLMFullResponseStartFrame :: frames))
           self) in
    let segs := collect_segments out in
    forallb (fun seg => is_speaker (fst seg)) segs = true
    /\ collect_segments
         (exec_out (Gate.process_frames out) (Gate.init "AA"))
       = filter (segment_of "AA") segs
    /\ collect_segments
         (exec_out (Gate.process_frames out) (Gate.init "BB"))
       = filter (segment_of "BB") segs
    /\ length segs
       = (length (filter (segment_of "AA") segs)
          + length (filter (segment_of "BB") segs))%nat.
Proof.
  intros self frames Hall out segs.
  assert (Hsegs : forallb (fun seg => is_speaker (fst seg)) segs = true).
  { subst segs out. unfold collect_segments.
    apply collect_segments_speakers; [| reflexivity].
    apply speaker_tags_downstream_part.
    cbn [process_frames downstream]. rewrite exec_out_seq.
    change (exec_out
              (Tagger.process_frame LLMFullResponseStartFrame DOWNSTREAM) self)
      with (@nil Push).
    cbn [app].
    apply (keeps_speakers_process_frames frames Hall). reflexivity. }
  split; [exact Hsegs |].
  split; [apply (gate_segments_from out (Gate.init "AA") []); exact I |].
  split; [apply (gate_segments_from out (Gate.init "BB") []); exact I |].
  apply speakers_split, Hsegs.
Qed.

Lemma every_segment_goes_down_one_branch_witness :
  let frames :=
    [downstream (LLMTextFrame "AA one"); downstream (LLMTextFrame "BB two");
     downstream (LLMTextFrame " more"); downstream LLMFullResponseEndFrame;
     upstream NextCharacterSequenceFrame] in
  let out :=
    downstream_part
      (exec_out
         (process_frames (downstream LLMFullResponseStartFrame :: frames))
         init) in
  forallb (fun p => negb (is_tag_frame p)) frames = true
  /\ collect_segments
       (exec_out (Gate.process_frames out) (Gate.init "BB"))
     = [("BB", " two more")].
Proof.
  cbv zeta. split; [reflexivity |].
  rewrite (proj1 (proj2 (proj2
             (every_segment_goes_down_one_branch init
                [downstream (LLMTextFrame "AA one");
                 downstream (LLMTextFrame "BB two");
                 downstream (LLMTextFrame " more");
                 downstream LLMFullResponseEndFrame;
                 upstream NextCharacterSequenceFrame]
                eq_refl)))).
  reflexivity.
Defined.

(** ** The sequencer on a stream *)

Lemma sequencer_process_frame_eq frame direction :
  Sequencer.process_frame frame direction tt
  = (tt, tt,
     if isinstance frame cls_LLMFullResponseEndFrame
     then [upstream NextCharacterSequenceFrame; (frame, direction)]
     else [(frame, direction)]).
Proof. destruct frame; reflexivity. Qed.

Lemma sequencer_process_frames_out frame direction frames :
  exec_out (Sequencer.process_frames ((frame, direction) :: frames)) tt
  = (if isinstance frame cls_LLMFullResponseEndFrame
     then [upstream NextCharacterSequenceFrame; (frame, direction)]
     else [(frame, direction)])
    ++ exec_out (Sequencer.process_frames frames) tt.
Proof.
  cbn [Sequencer.process_frames]. rewrite exec_out_seq.
  rewrite (exec_out_eq _ _ _ _ (sequencer_process_frame_eq frame direction)).
  rewrite (exec_state_eq _ _ _ _ (sequencer_process_frame_eq frame direction)).
  reflexivity.
Qed.

(** X15: the sequencer on any list of frames: it forwards every frame, in
    order and in its direction, so that what it pushes, the release signals
    left aside, is what it received, the release signals left aside; and it
    sends one release signal for each response end it receives, so that the
    release signals it pushes are those it received and one more per
    response end.  The new signals are the only frames it makes, and they go
    upstream whatever the direction of the response end. *)
Theorem sequencer_sends_one_release_per_response_end :
  forall frames,
    let out := exec_out (Sequencer.process_frames frames) tt in
    filter (fun p => negb (is_release p)) out
    = filter (fun p => negb (is_release p)) frames
    /\ releases_sent out = (response_ends frames + releases_sent frames)%nat
    /\ filter is_downstream out = filter is_downstream frames.
Proof.
  intros frames out. subst out. unfold releases_sent, response_ends.
  induction frames as [| [frame direction] frames (IH1 & IH2 & IH3)];
    [repeat split |].
  rewrite sequencer_process_frames_out, !filter_app, !length_app.
  rewrite IH1, IH2, IH3.
  change ((frame, direction) :: frames) with ([(frame, direction)] ++ frames).
  rewrite !filter_app, !length_app.
  destruct frame as [| | t | | k | c | | k];
    cbn [isinstance filter is_release is_response_end fst negb length app];
    unfold Push in *; repeat split; try lia; try reflexivity.
Qed.

(** ** The retagger on a stream *)

Lemma retagger_process_frame_eq frame direction self :
  Retagger.process_frame frame direction self
  = (tt, self,
     if isinstance frame cls_LLMFullResponseStartFrame
     then [downstream frame;
           downstream
             (LLMTextFrame
                (Retagger.character self ++ String line_feed EmptyString))]
     else [(frame, direction)]).
Proof. destruct frame; reflexivity. Qed.

Lemma retagger_process_frames_eq frame direction frames self :
  Retagger.process_frames ((frame, direction) :: frames) self
  = (tt,
     exec_state (Retagger.process_frames frames) self,
     (if isinstance frame cls_LLMFullResponseStartFrame
      then [downstream frame;
            downstream
              (LLMTextFrame
                 (Retagger.character self ++ String line_feed EmptyString))]
      else [(frame, direction)])
     ++ exec_out (Retagger.process_frames frames) self).
Proof.
  rewrite proc_unit_eta. cbn [Retagger.process_frames].
  rewrite exec_state_seq, exec_out_seq.
  rewrite (exec_out_eq _ _ _ _ (retagger_process_frame_eq frame direction self)).
  rewrite (exec_state_eq _ _ _ _
             (retagger_process_frame_eq frame direction self)).
  reflexivity.
Qed.

(** X16: the retagger on any list of frames: its character never changes;
    the frames that are not text frames come out as they went in, same
    frames in the same order, none added and none dropped; and the text that
    comes out has grown by one text frame per response start, the label: the
    character and a line feed. *)
Theorem retagger_adds_one_label_per_response_start :
  forall frames self,
    let out := exec_out (Retagger.process_frames frames) self in
    exec_state (Retagger.process_frames frames) self = self
    /\ map fst (filter (fun p => negb (is_text p)) out)
       = map fst (filter (fun p => negb (is_text p)) frames)
    /\ length (filter is_text out)
       = (length (filter is_text frames)
          + length (filter is_response_start frames))%nat
    /\ (forall direction,
          exec_out
            (Retagger.process_frame LLMFullResponseStartFrame direction) self
          = [downstream LLMFullResponseStartFrame;
             downstream
               (LLMTextFrame
                  (Retagger.character self ++ String line_feed EmptyString))]).
Proof.
  intros frames self out. subst out.
  split; [| split; [| split]].
  - induction frames as [| [frame direction] frames IH]; [reflexivity |].
    unfold exec_state. rewrite retagger_process_frames_eq. exact IH.
  - induction frames as [| [frame direction] frames IH]; [reflexivity |].
    unfold exec_out at 1. rewrite retagger_process_frames_eq. cbn [snd].
    change ((frame, direction) :: frames)
      with ([(frame, direction)] ++ frames).
    rewrite !filter_app, !map_app.
    apply f_equal2; [destruct frame; reflexivity | exact IH].
  - induction frames as [| [frame direction] frames IH]; [reflexivity |].
    unfold exec_out at 1. rewrite retagger_process_frames_eq. cbn [snd].
    change ((frame, direction) :: frames)
      with ([(frame, direction)] ++ frames).
    rewrite !filter_app, !length_app. unfold Push in *. rewrite IH.
    destruct frame; cbn; lia.
  - intros direction. reflexivity.
Qed.

(** ** What a response start discards *)

(** X17: a response start discards whatever the queue holds: from any state
    of the tagger, held text or not, the text pushed after a response start,
    together with the text left in the queue, is what the tokens after that
    response start contribute and nothing else; text that was still held
    when the response start came is never pushed. *)
Theorem response_start_discards_held_text :
  forall self frames,
    forallb (fun p => negb (is_response_start p)) frames = true ->
    let run := process_frames (downstream LLMFullResponseStartFrame :: frames) in
    (emitted_text (exec_out run self)
     ++ pending (segments (exec_state run self)))%string
    = text_contributions frames.
Proof.
  intros self frames Hall run. subst run.
  set (self0 := {| current_character := current_character self;
                   segments := [] |}).
  assert (Hstart : Tagger.process_frame LLMFullResponseStartFrame DOWNSTREAM
                     self = (tt, self0, [])) by reflexivity.
  cbn [process_frames downstream].
  rewrite exec_state_seq, exec_out_seq.
  rewrite (exec_out_eq _ _ _ _ Hstart), (exec_state_eq _ _ _ _ Hstart).
  cbn [app].
  exact (proj2 (conserves_process_frames frames Hall self0 I)).
Qed.

Lemma response_start_discards_held_text_witness :
  let self :=
    {| current_character := "BB";
       segments := [mkSegment "AA" "" false; mkSegment "BB" " lost" true] |} in
  let frames :=
    [downstream (LLMTextFrame "AA kept"); downstream LLMFullResponseEndFrame;
     upstream NextCharacterSequenceFrame] in
  forallb (fun p => negb (is_response_start p)) frames = true
  /\ (emitted_text
        (exec_out
           (process_frames (downstream LLMFullResponseStartFrame :: frames))
           self)
      ++ pending
           (segments
              (exec_state
                 (process_frames
                    (downstream LLMFullResponseStartFrame :: frames))
                 self)))%string
     = " kept".
Proof.
  cbv zeta. split; [reflexivity |].
  rewrite (response_start_discards_held_text
             {| current_character := "BB";
                segments := [mkSegment "AA" "" false;
                             mkSegment "BB" " lost" true] |}
             [downstream (LLMTextFrame "AA kept");
              downstream LLMFullResponseEndFrame;
              upstream NextCharacterSequenceFrame]
             eq_refl).
  reflexivity.
Defined.

(** ** One branch for every frame of a segment *)

(** X18: the two gates of the pipeline, for AA and for BB, fed the same
    frames from their initial state.  Once the last tag frame seen names AA
    or BB, every frame that is neither a tag frame nor a termination or
    system frame (a text frame, a response start or end, a release signal on
    its way upstream) is forwarded by exactly one of the two gates, the one
    the tag names.  Before any tag frame both gates are closed and such a
    frame is dropped in both branches. *)
Theorem one_gate_forwards_after_a_speaker_tag :
  forall frames frame direction,
    is_tag_frame (frame, direction) = false ->
    lifecycle (frame, direction) = false ->
    let gate_a := exec_state (Gate.process_frames frames) (Gate.init "AA") in
    let gate_b := exec_state (Gate.process_frames frames) (Gate.init "BB") in
    (forall c,
       last_tag frames = Some c -> is_speaker c = true ->
       exec_out (Gate.process_frame frame direction) gate_a
       ++ exec_out (Gate.process_frame frame direction) gate_b
       = [(frame, direction)]
       /\ Gate.open gate_a = String.eqb c "AA"
       /\ Gate.open gate_b = String.eqb c "BB")
    /\ (last_tag frames = None ->
        exec_out (Gate.process_frame frame direction) gate_a = []
        /\ exec_out (Gate.process_frame frame direction) gate_b = []).
Proof.
  intros frames frame direction Htag Hlife gate_a gate_b.
  assert (Hopen_a : Gate.open gate_a
                    = match last_tag frames with
                      | Some c => String.eqb c "AA"
                      | None => false
                      end)
    by (subst gate_a; rewrite gate_open_after_stream; reflexivity).
  assert (Hopen_b : Gate.open gate_b
                    = match last_tag frames with
                      | Some c => String.eqb c "BB"
                      | None => false
                      end)
    by (subst gate_b; rewrite gate_open_after_stream; reflexivity).
  assert (Hout : forall g,
             exec_out (Gate.process_frame frame direction) g
             = if Gate.open g then [(frame, direction)] else []).
  { intros g. rewrite gate_process_frame_out.
    unfold lifecycle in Hlife; cbn [fst] in Hlife.
    destruct frame as [| | t | | k | c | | k]; try discriminate Htag;
      rewrite Hlife, orb_false_r; reflexivity. }
  rewrite !Hout, Hopen_a, Hopen_b. split.
  - intros c Hlast Hc. rewrite Hlast. unfold is_speaker in Hc.
    destruct (String.eqb_spec c "AA") as [-> | HA].
    + repeat split.
    + destruct (String.eqb_spec c "BB") as [-> | HB]; [repeat split |].
      discriminate Hc.
  - intros Hlast. rewrite Hlast. split; reflexivity.
Qed.

Lemma one_gate_forwards_after_a_speaker_tag_witness :
  let frames :=
    [downstream (CharacterTagFrame "AA"); downstream LLMFullResponseStartFrame;
     downstream (LLMTextFrame " one"); downstream LLMFullResponseEndFrame] in
  exec_out (Gate.process_frame NextCharacterSequenceFrame UPSTREAM)
    (exec_state (Gate.process_frames frames) (Gate.init "AA"))
  ++ exec_out (Gate.process_frame NextCharacterSequenceFrame UPSTREAM)
       (exec_state (Gate.process_frames frames) (Gate.init "BB"))
  = [upstream NextCharacterSequenceFrame].
Proof.
  cbv zeta.
  apply (proj1 (one_gate_forwards_after_a_speaker_tag
                  [downstream (CharacterTagFrame "AA");
                   downstream LLMFullResponseStartFrame;
                   downstream (LLMTextFrame " one");
                   downstream LLMFullResponseEndFrame]
                  NextCharacterSequenceFrame UPSTREAM eq_refl eq_refl)
           "AA" eq_refl eq_refl).
Defined.
